(** * httpclient: a retrying HTTP client with functional options

    A shallow embedding of [httpclient.go] and [types.go] of
    chinnareddy578/httpclient, and the properties of its retry loop,
    back-off function, header decorator, option constructors and JSON
    helpers.

    Conventions.
    - Go's [int] and [time.Duration] are 64-bit two's-complement integers:
      they are modelled as [Z] with the wrap-around written out
      ([wrap_int]).
    - [float64] is IEEE 754 binary64, modelled by the standard library's
      [spec_float] at precision 53 and maximal exponent 1024.
    - Go maps ([map[string]string], [http.Header]) are [gmap]s; the order
      in which [range] enumerates a map is not specified by the language
      and is supplied by an enumeration function.
    - Objects that the code mutates through a pointer ([*http.Transport],
      the caller's header map of [PostJSON]) live in explicit heaps. *)

From Stdlib Require Import ZArith Lia Bool Ascii String List.
From Stdlib Require Import SpecFloat.
From stdpp Require Import gmap strings list fin_maps.

Open Scope Z_scope.

(** ** Machine integers *)

Module GoInt.

Definition min_int : Z := - 2 ^ 63.
Definition max_int : Z := 2 ^ 63 - 1.

(** Two's-complement wrap-around of a 64-bit signed integer. *)
Definition wrap_int (z : Z) : Z := (z + 2 ^ 63) mod 2 ^ 64 - 2 ^ 63.

Definition in_range (z : Z) : bool := (min_int <=? z) && (z <=? max_int).

End GoInt.

(** [time.Duration]: a signed 64-bit count of nanoseconds. *)
Definition Duration : Type := Z.

Definition Millisecond : Duration := 1000000.
Definition Second : Duration := 1000000000.

(** ** binary64 arithmetic used by the back-off closure *)

Module Float64.

Definition prec : Z := 53.
Definition emax : Z := 1024.

Definition float64 : Type := spec_float.

(** The conversion [float64(n)] of an integer: round to nearest, ties to
    even. *)
Definition of_int (n : Z) : float64 := binary_normalize prec emax n 0 false.

Definition mul (x y : float64) : float64 := SFmul prec emax x y.

(** The integer part of a float (fraction discarded, towards zero);
    [None] for infinities and NaN. *)
Definition trunc (f : float64) : option Z :=
  match f with
  | S754_zero _ => Some 0
  | S754_finite s m e =>
      let a := match e with
               | Z0 => Zpos m
               | Zpos p => Zpos m * 2 ^ Zpos p
               | Zneg p => Zpos m / 2 ^ Zpos p
               end in
      Some (if s then - a else a)
  | S754_infinity _ => None
  | S754_nan => None
  end.

(** The conversion [int64(f)].  Go leaves the result unspecified when
    the truncated value does not fit; the value taken here is the one
    amd64 produces (the "integer indefinite" value).  No property below
    depends on that choice. *)
Definition to_int (f : float64) : Z :=
  match trunc f with
  | Some z => if GoInt.in_range z then z else GoInt.min_int
  | None => GoInt.min_int
  end.

(** [math.Pow(2, y)] for the arguments the back-off closure passes,
    which are integral: the library computes the power by repeated
    squaring of the significand 0.5 and finishes with [Ldexp], so the
    result is the correctly rounded [1 * 2^n] (exact in the normal and
    subnormal range, +Inf above it, 0 below it).  The special cases for
    an infinite or NaN exponent are those of the documentation of
    [math.Pow]. *)
Definition Pow2 (y : float64) : float64 :=
  match y with
  | S754_nan => S754_nan
  | S754_infinity false => S754_infinity false
  | S754_infinity true => S754_zero false
  | _ =>
      match trunc y with
      | Some n => SFldexp prec emax (SFone prec emax) n
      | None => S754_nan
      end
  end.

(** [n]-fold doubling of a significand. *)
Definition dbl (n : nat) (p : positive) : positive := Nat.iter n xO p.

End Float64.

(** ** The back-off function installed by [WithExponentialBackoff]

    [time.Duration(float64(baseDelay) * math.Pow(2, float64(attempt-1)))] *)
Definition exponential_backoff (baseDelay : Duration) (attempt : Z) : Duration :=
  Float64.to_int
    (Float64.mul (Float64.of_int baseDelay)
       (Float64.Pow2 (Float64.of_int (GoInt.wrap_int (attempt - 1))))).

(** The default installed by [NewHTTPClient]:
    [func(attempt int) time.Duration { return 0 }]. *)
Definition default_backoff (attempt : Z) : Duration := 0.


(** ** Header names

    [net/http] stores header fields under the canonical form of their
    name ([textproto.CanonicalMIMEHeaderKey]): when every byte of the key
    is a valid header-field byte, the first letter and every letter that
    follows a hyphen are upper-cased and every other letter is lower-cased;
    a key holding any other byte (a space, for instance) is kept as it
    is. *)

Module Textproto.

Definition byte_between (lo hi c : ascii) : bool :=
  ((N_of_ascii lo <=? N_of_ascii c) && (N_of_ascii c <=? N_of_ascii hi))%N.

Definition is_lower (c : ascii) : bool := byte_between "a" "z" c.
Definition is_upper (c : ascii) : bool := byte_between "A" "Z" c.
Definition is_digit (c : ascii) : bool := byte_between "0" "9" c.

(** ['a' - 'A'] *)
Definition toLower : N := 32.

Definition validHeaderFieldByte (c : ascii) : bool :=
  is_lower c || is_upper c || is_digit c
  || existsb (Ascii.eqb c) (list_ascii_of_string "!#$%&'*+-.^_`|~").

Fixpoint all_valid (s : string) : bool :=
  match s with
  | EmptyString => true
  | String c s' => validHeaderFieldByte c && all_valid s'
  end.

(** The canonicalising pass of [canonicalMIMEHeaderKey]; [upper] tells
    whether the next letter starts a word. *)
Fixpoint canonical_case (upper : bool) (s : string) : string :=
  match s with
  | EmptyString => EmptyString
  | String c s' =>
      let c' :=
        if upper && is_lower c then ascii_of_N (N_of_ascii c - toLower)
        else if negb upper && is_upper c then ascii_of_N (N_of_ascii c + toLower)
        else c in
      String c' (canonical_case (Ascii.eqb c' "-") s')
  end.

Definition CanonicalMIMEHeaderKey (s : string) : string :=
  if all_valid s then canonical_case true s else s.

End Textproto.

(** [http.Header]: canonical name to list of values. *)
Abbreviation http_Header := (gmap string (list string)).

(** [Header.Set]: replace the values stored under the canonical form of
    [key] by the single value [value]. *)
Definition Header_Set (key value : string) (h : http_Header) : http_Header :=
  <[Textproto.CanonicalMIMEHeaderKey key := [value]]> h.

(** [Header.Get]: the first value stored under the canonical form of
    [key], or the empty string. *)
Definition Header_Get (key : string) (h : http_Header) : string :=
  match h !! Textproto.CanonicalMIMEHeaderKey key with
  | Some (v :: _) => v
  | _ => EmptyString
  end.

(** ** Data model *)

Definition bytes : Type := string.

Inductive error : Type :=
| errors_New (msg : string)
| fmt_Errorf_status (code : Z)
| external_error (msg : string).

Record Request : Type := mkRequest {
  Method : string;
  URL : string;
  Header : http_Header;
  Request_Body : option bytes
}.

(** A response body: the bytes not yet read, the error the reader yields
    once they are exhausted (none: end of file), and whether [Close] has
    been called. *)
Record ReadCloser : Type := mkReadCloser {
  unread : bytes;
  read_error : option error;
  closed : bool
}.

Record Response : Type := mkResponse {
  StatusCode : Z;
  Body : ReadCloser
}.

(** The two results of [RoundTrip] and of [http.Client.Do]. *)
Definition RoundTripResult : Type := (Response + error)%type.

Record tls_Config : Type := mk_tls_Config {
  InsecureSkipVerify : bool;
  ServerName : string;
  MinVersion : Z
}.

(** [http.Transport], with the TLS field the options touch and a
    representative selection of its other settings. *)
Record http_Transport : Type := mk_http_Transport {
  TLSClientConfig : option tls_Config;
  Proxy : option string;
  DisableKeepAlives : bool;
  DisableCompression : bool;
  MaxIdleConns : Z;
  IdleConnTimeout : Duration;
  ForceAttemptHTTP2 : bool
}.

(** [&http.Transport{}] *)
Definition zero_Transport : http_Transport :=
  mk_http_Transport None None false false 0 0 false.

(** [&http.Transport{TLSClientConfig: tlsConfig}] *)
Definition tls_only_Transport (tlsConfig : option tls_Config) : http_Transport :=
  mk_http_Transport tlsConfig None false false 0 0 false.

Definition set_TLSClientConfig (tlsConfig : option tls_Config) (t : http_Transport)
  : http_Transport :=
  mk_http_Transport tlsConfig (Proxy t) (DisableKeepAlives t) (DisableCompression t)
    (MaxIdleConns t) (IdleConnTimeout t) (ForceAttemptHTTP2 t).

Definition loc : Type := positive.

(** The heap of [http.Transport] objects reachable through pointers. *)
Abbreviation TransportHeap := (gmap positive http_Transport).

(** The dynamic values an [http.RoundTripper] interface can hold: the nil
    interface, a [*http.Transport] (possibly the nil pointer), the
    package's own [*headerTransport], or any other implementation. *)
Inductive RoundTripper : Type :=
| nil_RoundTripper
| http_Transport_ptr (p : option loc)
| headerTransport_ptr (base : RoundTripper) (headers : gmap string string)
| other_RoundTripper (id : nat).

Record http_Client : Type := mk_http_Client {
  Client_Transport : RoundTripper;
  Client_Timeout : Duration
}.

Inductive Logger : Type :=
| log_Default
| custom_Logger (id : nat).

Record HTTPClient : Type := mkHTTPClient {
  client : http_Client;
  retryCount : Z;
  retryDelay : Duration;
  logger : Logger;
  backoff : option (Z -> Duration)
}.

(** ** Functional options

    An [Option] is a function on a pointer to the client: it updates the
    client it is given and may allocate or update [http.Transport]
    objects.  [None] stands for a run-time panic (a nil pointer
    dereference). *)

Definition Option : Type :=
  HTTPClient -> TransportHeap -> option (HTTPClient * TransportHeap).

Definition set_Transport (rt : RoundTripper) (hc : HTTPClient) : HTTPClient :=
  mkHTTPClient (mk_http_Client rt (Client_Timeout (client hc)))
    (retryCount hc) (retryDelay hc) (logger hc) (backoff hc).

(** [new(http.Transport)]: a reference that is not in use yet. *)
Definition alloc (heap : TransportHeap) : loc := fresh (dom heap).

Definition WithRetry (count : Z) (delay : Duration) : Option :=
  fun hc heap =>
    Some (mkHTTPClient (client hc) count delay (logger hc) (backoff hc), heap).

Definition WithExponentialBackoff (baseDelay : Duration) : Option :=
  fun hc heap =>
    Some (mkHTTPClient (client hc) (retryCount hc) (retryDelay hc) (logger hc)
            (Some (exponential_backoff baseDelay)), heap).

Definition WithLogger (l : Logger) : Option :=
  fun hc heap =>
    Some (mkHTTPClient (client hc) (retryCount hc) (retryDelay hc) l (backoff hc), heap).

Definition WithTransport (transport : RoundTripper) : Option :=
  fun hc heap => Some (set_Transport transport hc, heap).

Definition WithTLSConfig (tlsConfig : option tls_Config) : Option :=
  fun hc heap =>
    match Client_Transport (client hc) with
    | http_Transport_ptr (Some p) =>
        match heap !! p with
        | Some t => Some (hc, <[p := set_TLSClientConfig tlsConfig t]> heap)
        | None => None
        end
    | http_Transport_ptr None => None
    | _ =>
        let p := alloc heap in
        Some (set_Transport (http_Transport_ptr (Some p)) hc,
              <[p := tls_only_Transport tlsConfig]> heap)
    end.

Definition WithDefaultHeaders (headers : gmap string string) : Option :=
  fun hc heap =>
    let '(originalTransport, heap1) :=
      match Client_Transport (client hc) with
      | nil_RoundTripper =>
          let p := alloc heap in
          (http_Transport_ptr (Some p), <[p := zero_Transport]> heap)
      | rt => (rt, heap)
      end in
    Some (set_Transport (headerTransport_ptr originalTransport headers) hc, heap1).

Definition WithTimeout (timeout : Duration) : Option :=
  fun hc heap =>
    Some (mkHTTPClient (mk_http_Client (Client_Transport (client hc)) timeout)
            (retryCount hc) (retryDelay hc) (logger hc) (backoff hc), heap).

Definition NewHTTPClient (options : list Option) (heap : TransportHeap)
  : option (HTTPClient * TransportHeap) :=
  fold_left
    (fun acc opt => match acc with Some (hc, h) => opt hc h | None => None end)
    options
    (Some (mkHTTPClient (mk_http_Client nil_RoundTripper 0) 0 0 log_Default
             (Some default_backoff), heap)).

(** The options other than [WithExponentialBackoff]. *)
Inductive fixed_delay_option : Option -> Prop :=
| fdo_WithRetry count delay : fixed_delay_option (WithRetry count delay)
| fdo_WithLogger l : fixed_delay_option (WithLogger l)
| fdo_WithTransport rt : fixed_delay_option (WithTransport rt)
| fdo_WithTLSConfig cfg : fixed_delay_option (WithTLSConfig cfg)
| fdo_WithDefaultHeaders h : fixed_delay_option (WithDefaultHeaders h)
| fdo_WithTimeout t : fixed_delay_option (WithTimeout t).

(** ** Observable effects of a request *)

Inductive LogLine : Type :=
| Retrying_request (i count : Z) (delay : Duration)
| Request_failed (err : error)
| Received_non_2xx (code : Z).

(** One event per effect of [Do].  [Ev_send handed wire] is one call of
    [hc.client.Do]: [handed] is the request as [Do] passes it, [wire] the
    request as the installed transport chain hands it to its base. *)
Inductive Event : Type :=
| Ev_Printf (l : Logger) (line : LogLine)
| Ev_Sleep (d : Duration)
| Ev_send (handed wire : Request)
| Ev_Close (resp : Response).

Definition sends (tr : list Event) : list (Request * Request) :=
  flat_map (fun e => match e with Ev_send h w => [(h, w)] | _ => [] end) tr.

Definition delays (tr : list Event) : list Duration :=
  flat_map (fun e => match e with Ev_Sleep d => [d] | _ => [] end) tr.

Definition is_2xx (code : Z) : bool := (200 <=? code) && (code <? 300).

(** Whether an attempt ends the retry loop. *)
Definition attempt_succeeds (r : RoundTripResult) : bool :=
  match r with
  | inl resp => is_2xx (StatusCode resp)
  | inr _ => false
  end.

(** The error [Do] records for an attempt that does not succeed. *)
Definition attempt_error (r : RoundTripResult) : error :=
  match r with
  | inl _ => errors_New "non-2xx response received"
  | inr err => err
  end.

Definition Close (b : ReadCloser) : ReadCloser :=
  mkReadCloser (unread b) (read_error b) true.

Definition DoResult : Type := (option Response * option error)%type.

(** Prefix the events of a step to the trace of what follows it. *)
Definition emit {A} (evs : list Event) (k : option (A * list Event))
  : option (A * list Event) :=
  match k with
  | Some (a, tr) => Some (a, evs ++ tr)
  | None => None
  end.

(** The delays [Do] sleeps before the attempt with loop counter [i]. *)
Definition retry_pause (hc : HTTPClient) (i : Z) : list Duration :=
  if 0 <? i then
    [match backoff hc with Some f => f i | None => retryDelay hc end]
  else [].

(** Operations performed on a response body by the body readers. *)
Inductive BodyOp : Type :=
| Op_ReadAll
| Op_Decode
| Op_Close.

(** The heap of the [map[string]string] objects that callers hand to the
    request helpers: a map is a reference, and an update through one
    reference is seen through every other. *)
Abbreviation MapHeap := (gmap positive (gmap string string)).

(** ** Sample collaborators, used to exercise the statements *)

Definition sample_request : Request :=
  mkRequest "GET" "http://example.test/" ∅ None.

Definition empty_body : ReadCloser := mkReadCloser "" None false.

(** A transport on which every exchange fails. *)
Definition refusing_network (n : nat) (req : Request) : RoundTripResult :=
  inr (external_error "connection refused").

(** A transport that answers the [n]-th exchange with the [n]-th status
    code of a list, and with 200 beyond its end. *)
Definition status_network (codes : list Z) (n : nat) (req : Request)
  : RoundTripResult :=
  inl (mkResponse (nth n codes 200) empty_body).

Inductive SampleValue : Type :=
| sample_null
| sample_true
| sample_channel.

(** [json.Marshal] on the sample values: a channel cannot be encoded. *)
Definition sample_Marshal (v : SampleValue) : bytes + error :=
  match v with
  | sample_null => inl "null"%string
  | sample_true => inl "true"%string
  | sample_channel => inr (external_error "json: unsupported type: chan int")
  end.

Definition any_url (u : string) : bool := true.

(** A client with the given retry count, a fixed delay of one second,
    the default back-off function and the default transport. *)
Definition sample_client (count : Z) : HTTPClient :=
  mkHTTPClient (mk_http_Client nil_RoundTripper 0) count Second log_Default
    (Some default_backoff).

Definition ok_response : Response := mkResponse 200 empty_body.

Definition sample_tls : tls_Config := mk_tls_Config true "" 0.

(** A customised base transport. *)
Definition sample_transport : http_Transport :=
  mk_http_Transport None (Some "http://proxy.test"%string) true false 7 0 false.

(** A caller's header map, held at reference 1, that names the content
    type in lower case. *)
Definition lowercase_maps : MapHeap :=
  {[1%positive := {["content-type" := "text/plain"]}]}.

(** A caller's empty header map, held at reference 1. *)
Definition empty_maps : MapHeap := {[1%positive := ∅]}.

(** A header mapping that spells one header name in two ways. *)
Definition colliding_headers : gmap string string :=
  <["x-app" := "a"]> (<["X-App" := "b"]> ∅).

(** Two enumeration orders of a map. *)
Definition listed_order (m : gmap string string) : list (string * string) :=
  map_to_list m.
Definition reversed_order (m : gmap string string) : list (string * string) :=
  rev (map_to_list m).

(** A decoder that stores the unread bytes in a string target. *)
Definition sample_Decode (b : ReadCloser) (target : string)
  : bytes * string * option error :=
  (EmptyString, unread b, None).

(** ** The client *)

Section Runtime.

(** The outcome of the [n]-th exchange of the base transport (counted
    from 0 within one call of [Do]) for the request it is handed. *)
Variable network : nat -> Request -> RoundTripResult.

(** The order in which a [range] over a map enumerates its entries. *)
Variable range_order : gmap string string -> list (string * string).

(** Whether [http.NewRequest] accepts a target. *)
Variable url_ok : string -> bool.

(** The values handed to [PostJSON], and [json.Marshal] on them. *)
Variable Value : Type.
Variable json_Marshal : Value -> bytes + error.

(** The decode targets of [ReadJSONResponseBody], and
    [json.NewDecoder(body).Decode(target)]: the bytes left unread, the
    target after decoding, and the error. *)
Variable Target : Type.
Variable json_Decode : ReadCloser -> Target -> bytes * Target * option error.

Definition set_header (r : Request) (kv : string * string) : Request :=
  mkRequest (Method r) (URL r) (Header_Set (fst kv) (snd kv) (Header r))
    (Request_Body r).

(** [for key, value := range headers { req.Header.Set(key, value) }] *)
Definition range_Set (headers : gmap string string) (req : Request) : Request :=
  fold_left set_header (range_order headers) req.

(** [RoundTrip] of the installed transport: the result, and the request
    as the base transport received it.  The request is a shared object,
    so the headers set by [headerTransport.RoundTrip] stay on it. *)
Fixpoint RoundTrip (rt : RoundTripper) (n : nat) (req : Request)
  : RoundTripResult * Request :=
  match rt with
  | headerTransport_ptr base headers => RoundTrip base n (range_Set headers req)
  | _ => (network n req, req)
  end.

(** The request as the base of a transport chain receives it. *)
Fixpoint wire_request (rt : RoundTripper) (req : Request) : Request :=
  match rt with
  | headerTransport_ptr base headers => wire_request base (range_Set headers req)
  | _ => req
  end.

(** [hc.client.Do(req)]: one round trip through the installed transport.
    What [http.Client] adds around it (redirects, cookies, the timeout) is
    part of the outcome that [network] supplies. *)
Definition client_Do (c : http_Client) (n : nat) (req : Request)
  : RoundTripResult * Request :=
  RoundTrip (Client_Transport c) n req.

(** The retry loop of [Do], entered with loop counter [i], [lastErr],
    and [n] exchanges made so far.  [fuel] bounds the number of times the
    loop condition is evaluated; [None]: the loop is still running. *)
Fixpoint Do_from (fuel : nat) (hc : HTTPClient) (i : Z) (lastErr : option error)
    (n : nat) (req : Request) : option (DoResult * list Event) :=
  match fuel with
  | O => None
  | S fuel' =>
      if i <=? retryCount hc then
        let pause :=
          if 0 <? i then
            let delay := match backoff hc with
                         | Some f => f i
                         | None => retryDelay hc
                         end in
            [Ev_Printf (logger hc) (Retrying_request i (retryCount hc) delay);
             Ev_Sleep delay]
          else [] in
        let '(r, wire) := client_Do (client hc) n req in
        match r with
        | inr err =>
            emit (pause ++ [Ev_send req wire;
                            Ev_Printf (logger hc) (Request_failed err)])
              (Do_from fuel' hc (GoInt.wrap_int (i + 1)) (Some err) (S n) wire)
        | inl resp =>
            if (200 <=? StatusCode resp) && (StatusCode resp <? 300) then
              Some ((Some resp, None), pause ++ [Ev_send req wire])
            else
              emit (pause ++ [Ev_send req wire;
                              Ev_Printf (logger hc) (Received_non_2xx (StatusCode resp));
                              Ev_Close resp])
                (Do_from fuel' hc (GoInt.wrap_int (i + 1))
                   (Some (errors_New "non-2xx response received")) (S n) wire)
        end
      else Some ((None, lastErr), [])
  end.

Definition Do (fuel : nat) (hc : HTTPClient) (req : Request)
  : option (DoResult * list Event) :=
  Do_from fuel hc 0 None 0 req.

(** The request that reaches the base transport in the [j]-th attempt
    (counted from 0) of [Do hc req], and the outcome of that attempt. *)
Definition attempt_request (hc : HTTPClient) (req : Request) (j : nat) : Request :=
  Nat.iter (S j) (wire_request (Client_Transport (client hc))) req.

Definition attempt_outcome (hc : HTTPClient) (req : Request) (j : nat)
  : RoundTripResult :=
  network j (attempt_request hc req j).

Definition http_NewRequest (method url : string) (body : option bytes)
  : Request + error :=
  if url_ok url then inl (mkRequest method url ∅ body)
  else inr (external_error "invalid request target").

(** The request helpers.  [headers] is the content of the caller's map
    when the helper is entered (the nil map has no entry). *)
Definition Get (fuel : nat) (hc : HTTPClient) (url : string)
    (headers : gmap string string) : option (DoResult * list Event) :=
  match http_NewRequest "GET" url None with
  | inr err => Some ((None, Some err), [])
  | inl req => Do fuel hc (range_Set headers req)
  end.

Definition Post (fuel : nat) (hc : HTTPClient) (url : string)
    (body : option bytes) (headers : gmap string string)
  : option (DoResult * list Event) :=
  match http_NewRequest "POST" url body with
  | inr err => Some ((None, Some err), [])
  | inl req => Do fuel hc (range_Set headers req)
  end.

Definition Put (fuel : nat) (hc : HTTPClient) (url : string)
    (body : option bytes) (headers : gmap string string)
  : option (DoResult * list Event) :=
  match http_NewRequest "PUT" url body with
  | inr err => Some ((None, Some err), [])
  | inl req => Do fuel hc (range_Set headers req)
  end.

Definition Delete (fuel : nat) (hc : HTTPClient) (url : string)
    (headers : gmap string string) : option (DoResult * list Event) :=
  match http_NewRequest "DELETE" url None with
  | inr err => Some ((None, Some err), [])
  | inl req => Do fuel hc (range_Set headers req)
  end.

(** [PostJSON]; [headers] is the caller's map ([None]: the nil map).
    The second component is the heap of maps as the caller finds it
    afterwards. *)
Definition PostJSON (fuel : nat) (hc : HTTPClient) (url : string)
    (jsonBody : Value) (headers : option positive) (maps : MapHeap)
  : option (DoResult * list Event) * MapHeap :=
  let '(l, maps1) :=
    match headers with
    | Some l => (l, maps)
    | None => let l := fresh (dom maps) in (l, <[l := ∅]> maps)
    end in
  match json_Marshal jsonBody with
  | inr err => (Some ((None, Some err), []), maps1)
  | inl body =>
      let maps2 :=
        <[l := <["Content-Type" := "application/json"]> (maps1 !!! l)]> maps1 in
      (Post fuel hc url (Some body) (maps2 !!! l), maps2)
  end.

(** [ReadResponseBody]: the string and error returned, the response
    afterwards, and the operations performed on its body. *)
Definition ReadResponseBody (resp : Response)
  : (string * option error) * Response * list BodyOp :=
  let b := Body resp in
  let after := mkResponse (StatusCode resp) (mkReadCloser "" (read_error b) true) in
  match read_error b with
  | Some err => ((EmptyString, Some err), after, [Op_ReadAll; Op_Close])
  | None => ((unread b, None), after, [Op_ReadAll; Op_Close])
  end.

(** [ReadJSONResponseBody]: the error returned, the target and the
    response afterwards, and the operations performed on the body. *)
Definition ReadJSONResponseBody (resp : Response) (target : Target)
  : option error * Target * Response * list BodyOp :=
  if (StatusCode resp <? 200) || (StatusCode resp >=? 300) then
    (Some (fmt_Errorf_status (StatusCode resp)), target,
     mkResponse (StatusCode resp) (Close (Body resp)), [Op_Close])
  else
    let '(rest, target', err) := json_Decode (Body resp) target in
    (err, target',
     mkResponse (StatusCode resp)
       (Close (mkReadCloser rest (read_error (Body resp)) (closed (Body resp)))),
     [Op_Decode; Op_Close]).

End Runtime.

(** ** Notions used to describe a run of [Do] *)

(** The events of the pause before the attempt with loop counter [i]. *)
Definition pause_events (hc : HTTPClient) (i : Z) : list Event :=
  if 0 <? i then
    [Ev_Printf (logger hc)
       (Retrying_request i (retryCount hc)
          (match backoff hc with Some f => f i | None => retryDelay hc end));
     Ev_Sleep (match backoff hc with Some f => f i | None => retryDelay hc end)]
  else [].

(** The events that follow an attempt that does not succeed. *)
Definition failure_events (hc : HTTPClient) (r : RoundTripResult) : list Event :=
  match r with
  | inr err => [Ev_Printf (logger hc) (Request_failed err)]
  | inl resp =>
      [Ev_Printf (logger hc) (Received_non_2xx (StatusCode resp)); Ev_Close resp]
  end.

(** The responses whose body a run closed, in order. *)
Definition closes (tr : list Event) : list Response :=
  flat_map (fun e => match e with Ev_Close r => [r] | _ => [] end) tr.

(** The response of an attempt when the retry loop discards it. *)
Definition discarded (r : RoundTripResult) : list Response :=
  match r with
  | inl resp => if is_2xx (StatusCode resp) then [] else [resp]
  | inr _ => []
  end.

(** Two requests with the same method, target and body. *)
Definition same_envelope (a b : Request) : Prop :=
  Method a = Method b /\ URL a = URL b /\ Request_Body a = Request_Body b.

Definition is_headerTransport (rt : RoundTripper) : bool :=
  match rt with
  | headerTransport_ptr _ _ => true
  | _ => false
  end.

(** The options other than [WithRetry]. *)
Inductive non_retry_option : Option -> Prop :=
| nro_WithExponentialBackoff b : non_retry_option (WithExponentialBackoff b)
| nro_WithLogger l : non_retry_option (WithLogger l)
| nro_WithTransport rt : non_retry_option (WithTransport rt)
| nro_WithTLSConfig cfg : non_retry_option (WithTLSConfig cfg)
| nro_WithDefaultHeaders h : non_retry_option (WithDefaultHeaders h)
| nro_WithTimeout t : non_retry_option (WithTimeout t).

(** A transport chain over which [WithTLSConfig] does not panic: its
    outermost value is not a nil or dangling [*http.Transport]. *)
Definition installable (rt : RoundTripper) (heap : TransportHeap) : Prop :=
  match rt with
  | http_Transport_ptr (Some p) => is_Some (heap !! p)
  | http_Transport_ptr None => False
  | _ => True
  end.

(** The options with which construction cannot panic in a given heap:
    all of them, [WithTransport] being given an installable transport. *)
Inductive safe_option (heap : TransportHeap) : Option -> Prop :=
| so_WithRetry count delay : safe_option heap (WithRetry count delay)
| so_WithExponentialBackoff b : safe_option heap (WithExponentialBackoff b)
| so_WithLogger l : safe_option heap (WithLogger l)
| so_WithTransport rt : installable rt heap -> safe_option heap (WithTransport rt)
| so_WithTLSConfig cfg : safe_option heap (WithTLSConfig cfg)
| so_WithDefaultHeaders h : safe_option heap (WithDefaultHeaders h)
| so_WithTimeout t : safe_option heap (WithTimeout t).

(** The value of the loop counter of [Do] after [t] increments. *)
Definition loop_counter (i : Z) (t : nat) : Z :=
  Nat.iter t (fun x => GoInt.wrap_int (x + 1)) i.

(** The events that follow the send of an attempt. *)
Definition after_events (hc : HTTPClient) (r : RoundTripResult) : list Event :=
  if attempt_succeeds r then [] else failure_events hc r.

(** The events of the [t]-th iteration of a loop entered with counter
    [i], [n] exchanges made and the request [req]. *)
Definition attempt_block
    (network : nat -> Request -> RoundTripResult)
    (range_order : gmap string string -> list (string * string))
    (hc : HTTPClient) (i : Z) (n : nat) (req : Request) (t : nat) : list Event :=
  pause_events hc (loop_counter i t)
  ++ Ev_send
       (Nat.iter t (wire_request range_order (Client_Transport (client hc))) req)
       (Nat.iter (S t) (wire_request range_order (Client_Transport (client hc))) req)
     :: after_events hc
          (network (n + t)%nat
             (Nat.iter (S t) (wire_request range_order (Client_Transport (client hc)))
                req)).

(** What the loop returns after [k] attempts. *)
Definition loop_result
    (network : nat -> Request -> RoundTripResult)
    (range_order : gmap string string -> list (string * string))
    (hc : HTTPClient) (lastErr : option error) (n : nat) (req : Request) (k : nat)
  : DoResult :=
  match k with
  | O => (None, lastErr)
  | S k' =>
      match network (n + k')%nat
              (Nat.iter (S k') (wire_request range_order (Client_Transport (client hc)))
                 req) with
      | inl resp =>
          if is_2xx (StatusCode resp) then (Some resp, None)
          else (None, Some (errors_New "non-2xx response received"))
      | inr err => (None, Some err)
      end
  end.

(** A request carries the entries of a header mapping and nothing else:
    every entry that no other entry contradicts is stored under its
    canonical name, and a canonical name that no key denotes is absent. *)
Definition carries_exactly (headers : gmap string string) (req : Request) : Prop :=
  (forall k v,
     headers !! k = Some v ->
     (forall k' v', headers !! k' = Some v' ->
        Textproto.CanonicalMIMEHeaderKey k' = Textproto.CanonicalMIMEHeaderKey k ->
        v' = v) ->
     Header req !! Textproto.CanonicalMIMEHeaderKey k = Some [v])
  /\ (forall c,
        (forall k v, headers !! k = Some v ->
           Textproto.CanonicalMIMEHeaderKey k <> c) ->
        Header req !! c = None).

(** * Properties *)

(** ** Machine integers *)

Lemma wrap_int_id (z : Z) :
  GoInt.min_int <= z <= GoInt.max_int -> GoInt.wrap_int z = z.
Proof.
  unfold GoInt.min_int, GoInt.max_int, GoInt.wrap_int. intros Hz.
  assert (H63 : 2 ^ 63 = 9223372036854775808) by reflexivity.
  assert (H64 : 2 ^ 64 = 18446744073709551616) by reflexivity.
  rewrite H63, H64 in *. rewrite Z.mod_small; lia.
Qed.

Lemma wrap_int_range (z : Z) :
  GoInt.min_int <= GoInt.wrap_int z <= GoInt.max_int.
Proof.
  unfold GoInt.min_int, GoInt.max_int, GoInt.wrap_int.
  assert (H63 : 2 ^ 63 = 9223372036854775808) by reflexivity.
  assert (H64 : 2 ^ 64 = 18446744073709551616) by reflexivity.
  rewrite H63, H64.
  pose proof (Z.mod_pos_bound (z + 9223372036854775808) 18446744073709551616).
  lia.
Qed.

(** ** Traces *)

Lemma sends_app (a b : list Event) : sends (a ++ b) = sends a ++ sends b.
Proof. unfold sends. apply flat_map_app. Qed.

Lemma delays_app (a b : list Event) : delays (a ++ b) = delays a ++ delays b.
Proof. unfold delays. apply flat_map_app. Qed.

Lemma emit_Some {A} (evs : list Event) (k : option (A * list Event)) a tr :
  k = Some (a, tr) -> emit evs k = Some (a, evs ++ tr).
Proof. intros ->. reflexivity. Qed.

Lemma emit_inv {A} (evs : list Event) (k : option (A * list Event)) a tr :
  emit evs k = Some (a, tr) -> exists tr', k = Some (a, tr') /\ tr = evs ++ tr'.
Proof.
  destruct k as [[a' tr']|]; simpl; [|discriminate].
  intros [= -> <-]. eauto.
Qed.

(** ** The retry loop *)

Section DoFacts.

Variable network : nat -> Request -> RoundTripResult.
Variable range_order : gmap string string -> list (string * string).

Lemma RoundTrip_wire (rt : RoundTripper) (n : nat) (req : Request) :
  RoundTrip network range_order rt n req
  = (network n (wire_request range_order rt req), wire_request range_order rt req).
Proof.
  revert req. induction rt as [ | p | base IH headers | id]; intros req;
    simpl; [reflexivity | reflexivity | apply IH | reflexivity].
Qed.

(** The loop leaves when its counter exceeds [retryCount]. *)
Lemma Do_from_exit fuel hc i lastErr n req :
  retryCount hc < i ->
  Do_from network range_order (S fuel) hc i lastErr n req
  = Some ((None, lastErr), []).
Proof.
  intros Hi. simpl. destruct (Z.leb_spec i (retryCount hc)); [lia|reflexivity].
Qed.

(** One iteration whose attempt does not succeed. *)
Lemma Do_from_step_fail fuel hc i lastErr n req :
  i <= retryCount hc ->
  attempt_succeeds
    (network n (wire_request range_order (Client_Transport (client hc)) req)) = false ->
  exists evs,
    Do_from network range_order (S fuel) hc i lastErr n req
    = emit evs
        (Do_from network range_order fuel hc (GoInt.wrap_int (i + 1))
           (Some (attempt_error
                    (network n (wire_request range_order
                                  (Client_Transport (client hc)) req))))
           (S n) (wire_request range_order (Client_Transport (client hc)) req))
    /\ sends evs = [(req, wire_request range_order (Client_Transport (client hc)) req)]
    /\ delays evs = retry_pause hc i.
Proof.
  intros Hi Hfail.
  unfold Do_from; fold Do_from.
  destruct (Z.leb_spec i (retryCount hc)) as [_|]; [|lia].
  unfold client_Do. rewrite RoundTrip_wire.
  destruct (network n _) as [resp|err]; simpl in Hfail.
  - unfold is_2xx in Hfail. rewrite Hfail.
    eexists. split; [reflexivity|].
    rewrite sends_app, delays_app. unfold retry_pause.
    destruct (0 <? i); split; reflexivity.
  - eexists. split; [reflexivity|].
    rewrite sends_app, delays_app. unfold retry_pause.
    destruct (0 <? i); split; reflexivity.
Qed.

(** One iteration whose attempt succeeds. *)
Lemma Do_from_step_success fuel hc i lastErr n req resp :
  i <= retryCount hc ->
  network n (wire_request range_order (Client_Transport (client hc)) req) = inl resp ->
  is_2xx (StatusCode resp) = true ->
  exists evs,
    Do_from network range_order (S fuel) hc i lastErr n req
    = Some ((Some resp, None), evs)
    /\ sends evs = [(req, wire_request range_order (Client_Transport (client hc)) req)]
    /\ delays evs = retry_pause hc i.
Proof.
  intros Hi Hnet Hok.
  unfold Do_from; fold Do_from.
  destruct (Z.leb_spec i (retryCount hc)) as [_|]; [|lia].
  unfold client_Do. rewrite RoundTrip_wire, Hnet.
  unfold is_2xx in Hok. rewrite Hok.
  eexists. split; [reflexivity|].
  rewrite sends_app, delays_app. unfold retry_pause.
  destruct (0 <? i); split; reflexivity.
Qed.

(** [m] attempts in a row fail and exhaust the retries: the loop runs
    them all and returns the error of the last one. *)
Lemma Do_from_all_fail hc (m : nat) :
  forall fuel i lastErr n req,
    0 <= i -> i + Z.of_nat m = retryCount hc + 1 ->
    retryCount hc < GoInt.max_int ->
    (m < fuel)%nat ->
    (forall t, (t < m)%nat ->
       attempt_succeeds
         (network (n + t)
            (Nat.iter (S t) (wire_request range_order (Client_Transport (client hc))) req))
       = false) ->
    exists tr,
      Do_from network range_order fuel hc i lastErr n req
      = Some ((None,
               match m with
               | O => lastErr
               | S m' =>
                   Some (attempt_error
                           (network (n + m')
                              (Nat.iter (S m')
                                 (wire_request range_order (Client_Transport (client hc)))
                                 req)))
               end), tr)
      /\ length (sends tr) = m.
Proof.
  induction m as [|m IH]; intros fuel i lastErr n req Hi Him Hrc Hfuel Hfail.
  - destruct fuel as [|fuel]; [lia|].
    rewrite Do_from_exit by lia. eexists; split; reflexivity.
  - destruct fuel as [|fuel]; [lia|].
    destruct (Do_from_step_fail fuel hc i lastErr n req) as (evs & -> & Hs & _).
    { lia. }
    { specialize (Hfail O ltac:(lia)). rewrite Nat.add_0_r in Hfail. exact Hfail. }
    rewrite wrap_int_id by (unfold GoInt.min_int, GoInt.max_int in *; lia).
    edestruct (IH fuel (i + 1)) as (tr & Htr & Hlen); [lia|lia|lia|lia| |].
    { intros t Ht. specialize (Hfail (S t) ltac:(lia)).
      rewrite Nat.iter_succ_r in Hfail.
      replace (S n + t)%nat with (n + S t)%nat by lia. exact Hfail. }
    rewrite (emit_Some _ _ _ _ Htr).
    exists (evs ++ tr). split.
    + do 3 f_equal. destruct m as [|m'].
      * rewrite Nat.add_0_r. reflexivity.
      * rewrite (Nat.iter_succ_r (S m')).
        replace (S n + m')%nat with (n + S m')%nat by lia. reflexivity.
    + rewrite sends_app, length_app, Hs, Hlen. reflexivity.
Qed.

(** [m] attempts fail and the next one succeeds within the retries: the
    loop returns its response after [m + 1] attempts. *)
Lemma Do_from_first_success hc (m : nat) :
  forall fuel i lastErr n req resp,
    0 <= i -> i + Z.of_nat m <= retryCount hc ->
    retryCount hc <= GoInt.max_int ->
    (m < fuel)%nat ->
    (forall t, (t < m)%nat ->
       attempt_succeeds
         (network (n + t)
            (Nat.iter (S t) (wire_request range_order (Client_Transport (client hc))) req))
       = false) ->
    network (n + m)
      (Nat.iter (S m) (wire_request range_order (Client_Transport (client hc))) req)
    = inl resp ->
    is_2xx (StatusCode resp) = true ->
    exists tr,
      Do_from network range_order fuel hc i lastErr n req
      = Some ((Some resp, None), tr)
      /\ length (sends tr) = S m.
Proof.
  induction m as [|m IH]; intros fuel i lastErr n req resp Hi Him Hmax Hfuel Hfail Hnet Hok.
  - destruct fuel as [|fuel]; [lia|].
    rewrite Nat.add_0_r in Hnet.
    destruct (Do_from_step_success fuel hc i lastErr n req resp)
      as (evs & -> & Hs & _); [lia|exact Hnet|exact Hok|].
    eexists. split; [reflexivity|]. rewrite Hs. reflexivity.
  - destruct fuel as [|fuel]; [lia|].
    destruct (Do_from_step_fail fuel hc i lastErr n req) as (evs & -> & Hs & _).
    { lia. }
    { specialize (Hfail O ltac:(lia)). rewrite Nat.add_0_r in Hfail. exact Hfail. }
    edestruct (IH fuel (i + 1) (Some (attempt_error
                 (network n (wire_request range_order (Client_Transport (client hc)) req))))
                 (S n) (wire_request range_order (Client_Transport (client hc)) req) resp)
      as (tr & Htr & Hlen); [lia|lia|lia|lia| | | |].
    { intros t Ht. specialize (Hfail (S t) ltac:(lia)).
      rewrite Nat.iter_succ_r in Hfail.
      replace (S n + t)%nat with (n + S t)%nat by lia. exact Hfail. }
    { rewrite Nat.iter_succ_r in Hnet.
      replace (S n + m)%nat with (n + S m)%nat by lia. exact Hnet. }
    { exact Hok. }
    rewrite wrap_int_id by (unfold GoInt.min_int, GoInt.max_int in *; lia).
    rewrite Htr. eexists. split; [reflexivity|].
    rewrite sends_app, length_app, Hs, Hlen. reflexivity.
Qed.

(** With retries left below the machine limit the loop returns, whatever
    the transport does. *)
Lemma Do_from_returns hc (m : nat) :
  forall fuel i lastErr n req,
    0 <= i -> i + Z.of_nat m = retryCount hc + 1 ->
    retryCount hc < GoInt.max_int ->
    (m < fuel)%nat ->
    exists res, Do_from network range_order fuel hc i lastErr n req = Some res.
Proof.
  induction m as [|m IH]; intros fuel i lastErr n req Hi Him Hrc Hfuel.
  - destruct fuel as [|fuel]; [lia|].
    rewrite Do_from_exit by lia. eauto.
  - destruct fuel as [|fuel]; [lia|].
    destruct (attempt_succeeds
                (network n (wire_request range_order (Client_Transport (client hc)) req)))
      eqn:Hatt.
    + destruct (network n _) as [resp|err] eqn:Hnet; [|discriminate].
      destruct (Do_from_step_success fuel hc i lastErr n req resp)
        as (evs & -> & _); [lia|exact Hnet|exact Hatt|]. eauto.
    + destruct (Do_from_step_fail fuel hc i lastErr n req) as (evs & -> & _);
        [lia|exact Hatt|].
      rewrite wrap_int_id by (unfold GoInt.min_int, GoInt.max_int in *; lia).
      edestruct (IH fuel (i + 1)) as ([r tr] & ->); [lia|lia|lia|lia|].
      simpl. eauto.
Qed.

Lemma Do_returns hc req fuel :
  retryCount hc < GoInt.max_int ->
  (Z.to_nat (retryCount hc + 1) < fuel)%nat ->
  exists res, Do network range_order fuel hc req = Some res.
Proof.
  intros Hrc Hfuel. unfold Do.
  destruct (Z_lt_ge_dec (retryCount hc) 0) as [Hneg|Hpos].
  - destruct fuel as [|fuel]; [lia|]. rewrite Do_from_exit by lia. eauto.
  - apply (Do_from_returns hc (Z.to_nat (retryCount hc + 1))); lia.
Qed.

(** With [retryCount] at the machine maximum the loop condition holds
    for every value of the counter: while the attempts fail, the loop
    does not leave. *)
Lemma Do_from_never_returns hc :
  retryCount hc = GoInt.max_int ->
  (forall n req, attempt_succeeds (network n req) = false) ->
  forall fuel i lastErr n req,
    GoInt.min_int <= i <= GoInt.max_int ->
    Do_from network range_order fuel hc i lastErr n req = None.
Proof.
  intros Hrc Hfail. induction fuel as [|fuel IH]; intros i lastErr n req Hi.
  - reflexivity.
  - destruct (Do_from_step_fail fuel hc i lastErr n req) as (evs & -> & _);
      [lia|apply Hfail|].
    rewrite IH by apply wrap_int_range. reflexivity.
Qed.

(** Every delay the loop sleeps is the value of the installed back-off
    function when there is one. *)
Lemma Do_from_delays_backoff hc f :
  backoff hc = Some f ->
  forall fuel i lastErr n req res tr,
    Do_from network range_order fuel hc i lastErr n req = Some (res, tr) ->
    Forall (fun d => exists j, d = f j) (delays tr).
Proof.
  intros Hb. induction fuel as [|fuel IH]; intros i lastErr n req res tr HDo.
  - discriminate.
  - destruct (Z_le_gt_dec i (retryCount hc)) as [Hi|Hi].
    + assert (Hp : Forall (fun d => exists j, d = f j) (retry_pause hc i)).
      { unfold retry_pause. rewrite Hb.
        destruct (0 <? i); repeat constructor. eauto. }
      destruct (attempt_succeeds
                  (network n (wire_request range_order (Client_Transport (client hc)) req)))
        eqn:Hatt.
      * destruct (network n _) as [resp|err] eqn:Hnet; [|discriminate].
        destruct (Do_from_step_success fuel hc i lastErr n req resp)
          as (evs & Heq & _ & Hd); [lia|exact Hnet|exact Hatt|].
        rewrite Heq in HDo. injection HDo as _ <-. rewrite Hd. exact Hp.
      * destruct (Do_from_step_fail fuel hc i lastErr n req) as (evs & Heq & _ & Hd);
          [lia|exact Hatt|].
        rewrite Heq in HDo. apply emit_inv in HDo as (tr' & HDo & ->).
        rewrite delays_app, Hd. apply Forall_app. split; [exact Hp|].
        eapply IH. exact HDo.
    + rewrite Do_from_exit in HDo by lia. injection HDo as _ <-. constructor.
Qed.

End DoFacts.

(** C1 (amended): with a retry count [N], [0 <= N] and [N] below the
    largest [int], and a transport on which every one of the attempts
    [0..N] fails (an error, or a status outside 200..299), [Do] makes
    exactly [N + 1] send attempts and returns no response and the error of
    the last attempt: the transport's error, or the non-2xx marker. *)
Theorem Do_persistent_failure
    (network : nat -> Request -> RoundTripResult)
    (range_order : gmap string string -> list (string * string))
    (hc : HTTPClient) (req : Request) (fuel : nat) :
  0 <= retryCount hc < GoInt.max_int ->
  (forall j, (j <= Z.to_nat (retryCount hc))%nat ->
     attempt_succeeds (attempt_outcome network range_order hc req j) = false) ->
  (Z.to_nat (retryCount hc) + 1 < fuel)%nat ->
  exists tr,
    Do network range_order fuel hc req
    = Some ((None,
             Some (attempt_error
                     (attempt_outcome network range_order hc req
                        (Z.to_nat (retryCount hc))))), tr)
    /\ length (sends tr) = (Z.to_nat (retryCount hc) + 1)%nat.
Proof.
  intros HN Hfail Hfuel. unfold Do.
  destruct (Do_from_all_fail network range_order hc (S (Z.to_nat (retryCount hc)))
              fuel 0 None O req) as (tr & Htr & Hlen); try lia.
  - intros t Ht. apply (Hfail t). lia.
  - exists tr. split; [exact Htr|]. rewrite Hlen. lia.
Qed.

Lemma Do_persistent_failure_witness :
  0 <= retryCount (sample_client 2) < GoInt.max_int
  /\ (Z.to_nat (retryCount (sample_client 2)) + 1 < 4)%nat
  /\ exists tr,
       Do refusing_network listed_order 4 (sample_client 2) sample_request
       = Some ((None, Some (external_error "connection refused")), tr)
       /\ length (sends tr) = 3%nat.
Proof.
  split; [vm_compute; split; [discriminate|reflexivity]|].
  split; [vm_compute; lia|].
  apply (Do_persistent_failure refusing_network listed_order (sample_client 2)
           sample_request 4).
  - vm_compute. split; [discriminate|reflexivity].
  - intros j _. reflexivity.
  - vm_compute. lia.
Defined.

(** C1 as stated fails at the largest retry count: the loop condition
    [i <= retryCount] then holds for every [int], the counter wraps, and
    with a transport that always fails [Do] never returns. *)
Lemma Do_max_retryCount_never_returns :
  0 <= retryCount (sample_client GoInt.max_int) <= GoInt.max_int
  /\ (forall n req, attempt_succeeds (refusing_network n req) = false)
  /\ forall fuel,
       Do refusing_network listed_order fuel (sample_client GoInt.max_int)
         sample_request = None.
Proof.
  split; [vm_compute; split; [discriminate|intros [=]]|].
  split; [reflexivity|].
  intros fuel. unfold Do.
  apply Do_from_never_returns; [reflexivity|reflexivity|].
  vm_compute. split; discriminate.
Qed.

(** C3: when the [k]-th attempt (counted from 1, [k <= retryCount + 1]) is
    the first whose response has a status in 200..299, [Do] returns that
    response with a nil error, and its trace holds exactly [k] send
    attempts. *)
Theorem Do_first_success
    (network : nat -> Request -> RoundTripResult)
    (range_order : gmap string string -> list (string * string))
    (hc : HTTPClient) (req : Request) (k : nat) (resp : Response) (fuel : nat) :
  (1 <= k)%nat -> Z.of_nat k <= retryCount hc + 1 ->
  retryCount hc <= GoInt.max_int ->
  (forall j, (j < k - 1)%nat ->
     attempt_succeeds (attempt_outcome network range_order hc req j) = false) ->
  attempt_outcome network range_order hc req (k - 1) = inl resp ->
  is_2xx (StatusCode resp) = true ->
  (k <= fuel)%nat ->
  exists tr,
    Do network range_order fuel hc req = Some ((Some resp, None), tr)
    /\ length (sends tr) = k.
Proof.
  intros Hk HkN Hmax Hfail Hnet Hok Hfuel. unfold Do.
  destruct (Do_from_first_success network range_order hc (k - 1)
              fuel 0 None O req resp) as (tr & Htr & Hlen); try lia.
  - exact Hfail.
  - exact Hnet.
  - exact Hok.
  - exists tr. split; [exact Htr|]. rewrite Hlen. lia.
Qed.

Lemma Do_first_success_witness :
  (1 <= 3)%nat /\ Z.of_nat 3 <= retryCount (sample_client 5) + 1
  /\ retryCount (sample_client 5) <= GoInt.max_int
  /\ is_2xx (StatusCode (mkResponse 201 empty_body)) = true
  /\ (3 <= 3)%nat
  /\ exists tr,
       Do (status_network [500; 404; 201]) listed_order 3 (sample_client 5)
         sample_request
       = Some ((Some (mkResponse 201 empty_body), None), tr)
       /\ length (sends tr) = 3%nat.
Proof.
  split; [lia|]. split; [vm_compute; discriminate|].
  split; [vm_compute; discriminate|]. split; [reflexivity|]. split; [lia|].
  apply (Do_first_success (status_network [500; 404; 201]) listed_order
           (sample_client 5) sample_request 3 (mkResponse 201 empty_body) 3).
  - lia.
  - vm_compute. discriminate.
  - vm_compute. discriminate.
  - intros j Hj. destruct j as [|[|j]]; [reflexivity|reflexivity|lia].
  - reflexivity.
  - reflexivity.
  - lia.
Defined.

(** C9: with a negative retry count [Do] makes no send attempt (it has
    no effect at all) and returns neither a response nor an error. *)
Theorem Do_negative_retryCount
    (network : nat -> Request -> RoundTripResult)
    (range_order : gmap string string -> list (string * string))
    (hc : HTTPClient) (req : Request) (fuel : nat) :
  retryCount hc < 0 -> (0 < fuel)%nat ->
  Do network range_order fuel hc req = Some ((None, None), []).
Proof.
  intros Hneg Hfuel. unfold Do. destruct fuel as [|fuel]; [lia|].
  apply Do_from_exit. lia.
Qed.

Lemma Do_negative_retryCount_witness :
  retryCount (sample_client (-1)) < 0 /\ (0 < 1)%nat
  /\ Do (status_network []) listed_order 1 (sample_client (-1)) sample_request
     = Some ((None, None), []).
Proof.
  split; [reflexivity|]. split; [lia|].
  apply (Do_negative_retryCount (status_network []) listed_order
           (sample_client (-1)) sample_request 1); [reflexivity|lia].
Defined.

(** ** Construction and the default back-off function *)

Lemma fixed_delay_option_backoff (opt : Option) hc heap hc' heap' :
  fixed_delay_option opt -> opt hc heap = Some (hc', heap') ->
  backoff hc' = backoff hc.
Proof.
  intros Hopt Happ. destruct Hopt as [count delay|l|rt|cfg|h|t];
    unfold WithRetry, WithLogger, WithTransport, WithTLSConfig, WithDefaultHeaders,
      WithTimeout in Happ.
  - injection Happ as <- _. reflexivity.
  - injection Happ as <- _. reflexivity.
  - injection Happ as <- _. reflexivity.
  - destruct (Client_Transport (client hc)) as [ | [p|] | base hs | id].
    + injection Happ as <- _. reflexivity.
    + destruct (heap !! p); [|discriminate]. injection Happ as <- _. reflexivity.
    + discriminate.
    + injection Happ as <- _. reflexivity.
    + injection Happ as <- _. reflexivity.
  - destruct (Client_Transport (client hc)); injection Happ as <- _; reflexivity.
  - injection Happ as <- _. reflexivity.
Qed.

Lemma fold_options_backoff (options : list Option) :
  Forall fixed_delay_option options ->
  forall acc hc heap,
    fold_left
      (fun acc opt => match acc with Some (hc, h) => opt hc h | None => None end)
      options acc = Some (hc, heap) ->
    exists hc0 heap0, acc = Some (hc0, heap0) /\ backoff hc = backoff hc0.
Proof.
  induction 1 as [|opt options Hopt _ IH]; intros acc hc heap Hfold.
  - simpl in Hfold. subst acc. eauto.
  - simpl in Hfold. apply IH in Hfold as (hc1 & heap1 & Hstep & Hb).
    destruct acc as [[hc0 heap0]|]; [|discriminate].
    exists hc0, heap0. split; [reflexivity|].
    rewrite Hb. eapply fixed_delay_option_backoff; eassumption.
Qed.

(** A client built without [WithExponentialBackoff] still holds a
    back-off function: the constant 0 installed by [NewHTTPClient]. *)
Lemma NewHTTPClient_default_backoff (options : list Option) heap hc heap' :
  Forall fixed_delay_option options ->
  NewHTTPClient options heap = Some (hc, heap') ->
  backoff hc = Some default_backoff.
Proof.
  intros Hopts Hnew. unfold NewHTTPClient in Hnew.
  apply (fold_options_backoff options Hopts) in Hnew as (hc0 & heap0 & [= <- _] & ->).
  reflexivity.
Qed.

(** X21.  Hence [Do] on such a client sleeps 0 before every retry,
    whatever [retryDelay] was configured. *)
Lemma Do_fixed_delay_options_sleep_zero
    (network : nat -> Request -> RoundTripResult)
    (range_order : gmap string string -> list (string * string))
    (options : list Option) heap hc heap' fuel req res tr :
  Forall fixed_delay_option options ->
  NewHTTPClient options heap = Some (hc, heap') ->
  Do network range_order fuel hc req = Some (res, tr) ->
  Forall (fun d => d = 0) (delays tr).
Proof.
  intros Hopts Hnew HDo.
  pose proof (NewHTTPClient_default_backoff options heap hc heap' Hopts Hnew) as Hb.
  pose proof (Do_from_delays_backoff network range_order hc default_backoff Hb
                _ _ _ _ _ _ _ HDo) as HF.
  induction HF as [|d ds [j ->] _ IH]; constructor; [reflexivity|exact IH].
Qed.

(** C2 (the code departs from it): a client built with
    [WithRetry(2, time.Second)] and no back-off option has
    [retryDelay = 1s], yet on a failing transport [Do] sleeps 0 before
    each of its two retries. *)
Theorem Do_default_backoff_shadows_retryDelay :
  exists hc heap tr,
    NewHTTPClient [WithRetry 2 Second] ∅ = Some (hc, heap)
    /\ retryDelay hc = Second
    /\ Do refusing_network listed_order 4 hc sample_request
       = Some ((None, Some (external_error "connection refused")), tr)
    /\ delays tr = [0; 0].
Proof.
  eexists _, _, _. split; [reflexivity|]. split; [reflexivity|].
  split; reflexivity.
Qed.

(** ** The exponential back-off function *)

Module Float64Facts.
Import Float64.

Lemma iter_pos_nat {A} (f : A -> A) (p : positive) (x : A) :
  SpecFloat.iter_pos f p x = Nat.iter (Pos.to_nat p) f x.
Proof.
  revert x. induction p as [p IH|p IH|]; intros x.
  - change (SpecFloat.iter_pos f p~1 x)
      with (SpecFloat.iter_pos f p (SpecFloat.iter_pos f p (f x))).
    rewrite !IH, Pos2Nat.inj_xI.
    replace (S (2 * Pos.to_nat p))%nat with (Pos.to_nat p + (Pos.to_nat p + 1))%nat by lia.
    rewrite !Nat.iter_add. reflexivity.
  - change (SpecFloat.iter_pos f p~0 x)
      with (SpecFloat.iter_pos f p (SpecFloat.iter_pos f p x)).
    rewrite !IH, Pos2Nat.inj_xO.
    replace (2 * Pos.to_nat p)%nat with (Pos.to_nat p + Pos.to_nat p)%nat by lia.
    rewrite Nat.iter_add. reflexivity.
  - reflexivity.
Qed.

Lemma Pos_iter_nat {A} (f : A -> A) (p : positive) (x : A) :
  Pos.iter f x p = Nat.iter (Pos.to_nat p) f x.
Proof. apply Pos2Nat.inj_iter. Qed.

Lemma dbl_value n p : Zpos (dbl n p) = Zpos p * 2 ^ Z.of_nat n.
Proof.
  induction n as [|n IH].
  - simpl. lia.
  - unfold dbl in *. simpl Nat.iter. rewrite Pos2Z.inj_xO, IH.
    rewrite Nat2Z.inj_succ, Z.pow_succ_r by lia. lia.
Qed.

Lemma digits_dbl n p : Zpos (digits2_pos (dbl n p)) = Zpos (digits2_pos p) + Z.of_nat n.
Proof.
  induction n as [|n IH].
  - simpl. lia.
  - unfold dbl in *. simpl Nat.iter. simpl digits2_pos.
    rewrite Pos2Z.inj_succ, IH. lia.
Qed.

Lemma shr_dbl n p :
  Nat.iter n shr_1 (Build_shr_record (Zpos (dbl n p)) false false)
  = Build_shr_record (Zpos p) false false.
Proof.
  induction n as [|n IH].
  - reflexivity.
  - rewrite Nat.iter_succ_r. unfold dbl in *. simpl Nat.iter at 2.
    simpl shr_1. exact IH.
Qed.

(** Bounds of a positive in terms of its number of binary digits. *)
Lemma digits_bounds p :
  2 ^ (Zpos (digits2_pos p) - 1) <= Zpos p < 2 ^ Zpos (digits2_pos p).
Proof.
  induction p as [p IH|p IH|]; simpl digits2_pos.
  - rewrite Pos2Z.inj_succ. change (Zpos p~1) with (2 * Zpos p + 1).
    replace (Z.succ (Zpos (digits2_pos p)) - 1) with (Z.succ (Zpos (digits2_pos p) - 1)) by lia.
    rewrite !Z.pow_succ_r by lia.
    set (a := 2 ^ _) in *. set (b := 2 ^ _) in *. lia.
  - rewrite Pos2Z.inj_succ. change (Zpos p~0) with (2 * Zpos p).
    replace (Z.succ (Zpos (digits2_pos p)) - 1) with (Z.succ (Zpos (digits2_pos p) - 1)) by lia.
    rewrite !Z.pow_succ_r by lia.
    set (a := 2 ^ _) in *. set (b := 2 ^ _) in *. lia.
  - simpl. lia.
Qed.

(** Rounding a significand that is a 53-digit number followed by [k]
    zero bits is exact. *)
Lemma binary_round_aux_exact s q (k : nat) ex :
  Zpos (digits2_pos q) = 53 ->
  -1074 <= ex + Z.of_nat k ->
  ex + Z.of_nat k <= 971 ->
  binary_round_aux prec emax s (Zpos (dbl k q)) ex loc_Exact
  = S754_finite s q (ex + Z.of_nat k).
Proof.
  intros Hd Hlo Hhi.
  unfold binary_round_aux, shr_fexp.
  cbn [Zdigits2 shr_record_of_loc]. rewrite digits_dbl, Hd.
  assert (Hf : fexp prec emax (53 + Z.of_nat k + ex) - ex = Z.of_nat k).
  { unfold fexp, emin, prec, emax. lia. }
  rewrite Hf.
  assert (Hshr : shr (Build_shr_record (Zpos (dbl k q)) false false) ex (Z.of_nat k)
                 = (Build_shr_record (Zpos q) false false, ex + Z.of_nat k)).
  { destruct k as [|k].
    - simpl. f_equal. lia.
    - unfold shr. rewrite Nat2Z.inj_succ, <- Zpos_P_of_succ_nat.
      rewrite iter_pos_nat, SuccNat2Pos.id_succ, shr_dbl. reflexivity. }
  rewrite Hshr. cbn [shr_m loc_of_shr_record round_nearest_even Zdigits2 shr_record_of_loc].
  rewrite Hd.
  assert (Hf2 : fexp prec emax (53 + (ex + Z.of_nat k)) - (ex + Z.of_nat k) = 0).
  { unfold fexp, emin, prec, emax. lia. }
  rewrite Hf2. cbn [shr shr_m].
  unfold emax, prec.
  destruct (Z.leb_spec (ex + Z.of_nat k) (1024 - 53)); [reflexivity|lia].
Qed.


Lemma binary_round_small s p :
  Zpos (digits2_pos p) <= 53 ->
  binary_round prec emax s p 0
  = S754_finite s (dbl (Z.to_nat (53 - Zpos (digits2_pos p))) p)
      (Zpos (digits2_pos p) - 53).
Proof.
  intros Hd. unfold binary_round.
  assert (Hf : fexp prec emax (Zpos (digits2_pos p) + 0) = Zpos (digits2_pos p) - 53).
  { unfold fexp, emin, prec, emax. lia. }
  rewrite Hf. unfold shl_align.
  destruct (Zpos (digits2_pos p) - 53 - 0) as [|dd|dd] eqn:Hdd; [|lia|].
  - replace (53 - Zpos (digits2_pos p)) with 0 by lia.
    pose proof (binary_round_aux_exact s p 0 0) as Hx.
    simpl Z.of_nat in Hx. rewrite Z.add_0_r in Hx.
    change (dbl 0 p) with p in *. rewrite Hx by lia.
    f_equal. lia.
  - rewrite Pos_iter_nat. fold (dbl (Pos.to_nat dd) p).
    replace (Z.to_nat (53 - Zpos (digits2_pos p))) with (Pos.to_nat dd) by lia.
    pose proof (binary_round_aux_exact s (dbl (Pos.to_nat dd) p) 0
                  (Zpos (digits2_pos p) - 53)) as Hx.
    change (dbl 0 (dbl (Pos.to_nat dd) p)) with (dbl (Pos.to_nat dd) p) in Hx.
    simpl Z.of_nat in Hx. rewrite Z.add_0_r in Hx.
    apply Hx; [rewrite digits_dbl|..]; lia.
Qed.

(** Every integer of magnitude at most 2^53 converts to a normalised
    float of the same value. *)
Lemma of_int_repr z :
  z <> 0 -> Z.abs z <= 2 ^ 53 ->
  exists q e, of_int z = S754_finite (z <? 0) q e
              /\ Zpos (digits2_pos q) = 53 /\ -52 <= e <= 1
              /\ Zpos q * 2 ^ (e + 52) = Z.abs z * 2 ^ 52.
Proof.
  intros Hz Hb.
  assert (Hcase : forall s p, Zpos p <= 2 ^ 53 ->
            exists q e, binary_round prec emax s p 0 = S754_finite s q e
              /\ Zpos (digits2_pos q) = 53 /\ -52 <= e <= 1
              /\ Zpos q * 2 ^ (e + 52) = Zpos p * 2 ^ 52).
  { intros s p Hp.
    destruct (Z.eq_dec (Zpos p) (2 ^ 53)) as [Heq|Hne].
    - assert (p = 9007199254740992%positive) as -> by lia.
      exists 4503599627370496%positive, 1.
      split; [destruct s; vm_compute; reflexivity|].
      split; [reflexivity|]. split; [lia|reflexivity].
    - pose proof (digits_bounds p) as [Hlo Hhi].
      assert (Hd : Zpos (digits2_pos p) <= 53).
      { destruct (Z_le_gt_dec (Zpos (digits2_pos p)) 53) as [|Hgt]; [assumption|].
        exfalso.
        assert (2 ^ 53 <= 2 ^ (Zpos (digits2_pos p) - 1))
          by (apply Z.pow_le_mono_r; lia).
        lia. }
      eexists _, _. split; [apply (binary_round_small s p Hd)|].
      split; [rewrite digits_dbl; lia|]. split; [lia|].
      rewrite dbl_value, Z2Nat.id by lia.
      rewrite <- Z.mul_assoc, <- Z.pow_add_r by lia.
      do 2 f_equal. lia. }
  destruct z as [|p|p]; [congruence| |].
  - apply (Hcase false p). simpl in Hb. exact Hb.
  - apply (Hcase true p). simpl in Hb. exact Hb.
Qed.

Lemma trunc_finite s q e a :
  -52 <= e -> Zpos q * 2 ^ (e + 52) = a * 2 ^ 52 ->
  trunc (S754_finite s q e) = Some (if s then - a else a).
Proof.
  intros He Hv. unfold trunc. f_equal.
  assert (Ha : match e with
               | 0 => Zpos q
               | Zpos p => Zpos q * 2 ^ Zpos p
               | Zneg p => Zpos q / 2 ^ Zpos p
               end = a).
  { destruct e as [|p|p].
    - simpl in Hv. lia.
    - rewrite Z.pow_add_r, Z.mul_assoc in Hv by lia.
      apply Z.mul_cancel_r in Hv; lia.
    - assert (H52 : 2 ^ 52 = 2 ^ (Zneg p + 52) * 2 ^ Zpos p).
      { rewrite <- Z.pow_add_r by lia. f_equal. lia. }
      rewrite H52 in Hv.
      assert (Hq : Zpos q = a * 2 ^ Zpos p).
      { assert (0 < 2 ^ (Zneg p + 52)) by (apply Z.pow_pos_nonneg; lia).
        nia. }
      rewrite Hq. apply Z.div_mul.
      assert (0 < 2 ^ Zpos p) by (apply Z.pow_pos_nonneg; lia). lia. }
  rewrite Ha. reflexivity.
Qed.

Lemma trunc_of_int z : Z.abs z <= 2 ^ 53 -> trunc (of_int z) = Some z.
Proof.
  intros Hb. destruct (Z.eq_dec z 0) as [->|Hz]; [reflexivity|].
  destruct (of_int_repr z Hz Hb) as (q & e & -> & _ & He & Hv).
  rewrite (trunc_finite _ q e (Z.abs z)) by (lia || assumption).
  f_equal. destruct (Z.ltb_spec z 0); lia.
Qed.

(** [math.Pow(2, float64(n))] is the float [2^n] throughout the finite
    range. *)
Lemma Pow2_of_int n :
  0 <= n <= 1023 ->
  Pow2 (of_int n) = S754_finite false 4503599627370496 (n - 52).
Proof.
  intros Hn.
  assert (Ht : trunc (of_int n) = Some n).
  { apply trunc_of_int. assert (1023 < 2 ^ 53) by (vm_compute; reflexivity). lia. }
  assert (HP : Pow2 (of_int n) = SFldexp prec emax (SFone prec emax) n).
  { unfold Pow2. rewrite Ht.
    destruct (of_int n) as [ | [|] | |]; try reflexivity; discriminate. }
  rewrite HP.
  change (SFone prec emax) with (S754_finite false 4503599627370496 (-52)).
  unfold SFldexp, binary_round.
  change (digits2_pos 4503599627370496) with 53%positive.
  assert (Hf : fexp prec emax (53 + (-52 + n)) = -52 + n).
  { unfold fexp, emin, prec, emax. lia. }
  rewrite Hf. unfold shl_align. rewrite Z.sub_diag.
  pose proof (binary_round_aux_exact false 4503599627370496 0 (-52 + n)) as Hx.
  change (dbl 0 4503599627370496) with 4503599627370496%positive in Hx.
  simpl Z.of_nat in Hx. rewrite Z.add_0_r in Hx.
  rewrite Hx by (try reflexivity; lia). f_equal. lia.
Qed.

Lemma mul_pow2 s q e n :
  Zpos (digits2_pos q) = 53 -> -1074 <= e + n -> e + n <= 971 ->
  mul (S754_finite s q e) (S754_finite false 4503599627370496 (n - 52))
  = S754_finite s q (e + n).
Proof.
  intros Hd Hlo Hhi. unfold mul, SFmul.
  assert (Hm : (q * 4503599627370496)%positive = dbl 52 q).
  { apply Pos2Z.inj. rewrite dbl_value, Pos2Z.inj_mul. reflexivity. }
  rewrite Hm, xorb_false_r.
  rewrite (binary_round_aux_exact s q 52 (e + (n - 52))) by (simpl Z.of_nat; lia).
  f_equal. simpl Z.of_nat. lia.
Qed.

End Float64Facts.

Lemma exponential_backoff_exact (B : Duration) (i : Z) :
  Z.abs B <= 2 ^ 53 -> 1 <= i <= 1024 -> Z.abs B * 2 ^ (i - 1) < 2 ^ 63 ->
  exponential_backoff B i = B * 2 ^ (i - 1).
Proof.
  intros HB Hi Hprod. unfold exponential_backoff.
  rewrite wrap_int_id by (unfold GoInt.min_int, GoInt.max_int; lia).
  rewrite Float64Facts.Pow2_of_int by lia.
  destruct (Z.eq_dec B 0) as [->|HB0]; [reflexivity|].
  destruct (Float64Facts.of_int_repr B HB0 HB) as (q & e & -> & Hd & He & Hv).
  assert (Hpow : 0 < 2 ^ (i - 1)) by (apply Z.pow_pos_nonneg; lia).
  assert (Hi63 : i - 1 < 63).
  { destruct (Z_lt_ge_dec (i - 1) 63) as [|Hge]; [assumption|exfalso].
    assert (2 ^ 63 <= 2 ^ (i - 1)) by (apply Z.pow_le_mono_r; lia). nia. }
  rewrite Float64Facts.mul_pow2 by lia.
  unfold Float64.to_int.
  rewrite (Float64Facts.trunc_finite _ q (e + (i - 1)) (Z.abs B * 2 ^ (i - 1))).
  - assert (Hr : GoInt.in_range
                   (if B <? 0 then - (Z.abs B * 2 ^ (i - 1))
                    else Z.abs B * 2 ^ (i - 1)) = true).
    { unfold GoInt.in_range, GoInt.min_int, GoInt.max_int.
      apply andb_true_intro; split; apply Z.leb_le; destruct (B <? 0); lia. }
    rewrite Hr. destruct (Z.ltb_spec B 0); lia.
  - lia.
  - replace (e + (i - 1) + 52) with ((e + 52) + (i - 1)) by lia.
    rewrite Z.pow_add_r by lia. rewrite Z.mul_assoc, Hv. lia.
Qed.

(** C4 (amended): for a base delay [B] of magnitude at most 2^53
    nanoseconds and an attempt index [i >= 1] such that [B * 2^(i-1)] fits
    a [time.Duration] (and [i <= 1024] when [B = 0]), the function that
    [WithExponentialBackoff B] installs returns exactly [B * 2^(i-1)]. *)
Theorem WithExponentialBackoff_delay (B : Duration) (i : Z)
    (hc : HTTPClient) (heap : TransportHeap) :
  Z.abs B <= 2 ^ 53 -> 1 <= i -> (B = 0 -> i <= 1024) ->
  Z.abs B * 2 ^ (i - 1) < 2 ^ 63 ->
  exists hc' f,
    WithExponentialBackoff B hc heap = Some (hc', heap)
    /\ backoff hc' = Some f
    /\ f i = B * 2 ^ (i - 1).
Proof.
  intros HB Hi H0 Hprod.
  eexists _, _. split; [reflexivity|]. split; [reflexivity|].
  apply exponential_backoff_exact; [exact HB| |exact Hprod].
  split; [exact Hi|].
  destruct (Z.eq_dec B 0) as [HB0|HB0]; [auto|].
  destruct (Z_le_gt_dec i 64) as [|Hgt]; [lia|exfalso].
  assert (2 ^ 63 <= 2 ^ (i - 1)) by (apply Z.pow_le_mono_r; lia).
  nia.
Qed.

Lemma WithExponentialBackoff_delay_witness :
  Z.abs (100 * Millisecond) <= 2 ^ 53 /\ 1 <= 3
  /\ Z.abs (100 * Millisecond) * 2 ^ (3 - 1) < 2 ^ 63
  /\ exists hc' f,
       WithExponentialBackoff (100 * Millisecond) (sample_client 3) ∅ = Some (hc', ∅)
       /\ backoff hc' = Some f
       /\ f 3 = 100 * Millisecond * 2 ^ (3 - 1).
Proof.
  split; [vm_compute; discriminate|]. split; [lia|].
  split; [vm_compute; reflexivity|].
  apply (WithExponentialBackoff_delay (100 * Millisecond) 3 (sample_client 3) ∅).
  - vm_compute. discriminate.
  - lia.
  - intros H. vm_compute in H. discriminate H.
  - vm_compute. reflexivity.
Defined.

(** C4 as stated fails for a base delay that binary64 cannot hold: with
    [B = 2^53 + 1] nanoseconds the conversion [float64(B)] rounds to
    [2^53], and the delay of attempt 1 is [2^53], not [B]. *)
Lemma WithExponentialBackoff_delay_inexact :
  exists hc' f,
    WithExponentialBackoff (2 ^ 53 + 1) (sample_client 3) ∅ = Some (hc', ∅)
    /\ backoff hc' = Some f
    /\ f 1 = 2 ^ 53
    /\ f 1 <> (2 ^ 53 + 1) * 2 ^ (1 - 1).
Proof.
  eexists _, _. split; [reflexivity|]. split; [reflexivity|].
  split; [vm_compute; reflexivity|]. vm_compute. discriminate.
Qed.

Example backoff_100ms_1 : exponential_backoff (100 * Millisecond) 1 = 100 * Millisecond.
Proof. vm_compute. reflexivity. Qed.
Example backoff_100ms_2 : exponential_backoff (100 * Millisecond) 2 = 200 * Millisecond.
Proof. vm_compute. reflexivity. Qed.
Example backoff_100ms_3 : exponential_backoff (100 * Millisecond) 3 = 400 * Millisecond.
Proof. vm_compute. reflexivity. Qed.

(** ** The header decorator *)

Lemma Permutation_reversed_order (m : gmap string string) :
  reversed_order m ≡ₚ map_to_list m.
Proof. unfold reversed_order. symmetry. apply Permutation_rev. Qed.

Lemma Header_set_header (r : Request) (kv : string * string) :
  Header (set_header r kv) = Header_Set (fst kv) (snd kv) (Header r).
Proof. reflexivity. Qed.

(** After a sequence of [Set]s a canonical name holds the value [v] when
    every entry written under that name carries [v], and the name was
    written at least once or held [v] before. *)
Lemma set_headers_lookup (es : list (string * string)) (c v : string) :
  forall req,
    (forall k' v', (k', v') ∈ es ->
       Textproto.CanonicalMIMEHeaderKey k' = c -> v' = v) ->
    ((exists k', (k', v) ∈ es /\ Textproto.CanonicalMIMEHeaderKey k' = c)
     \/ Header req !! c = Some [v]) ->
    Header (fold_left set_header es req) !! c = Some [v].
Proof.
  induction es as [|[k1 v1] es IH]; intros req Hsame Hsrc.
  - simpl. destruct Hsrc as [(k' & Hin & _)|Hreq]; [|exact Hreq].
    apply elem_of_nil in Hin. destruct Hin.
  - simpl. apply IH.
    + intros k' v' Hin. apply Hsame. right. exact Hin.
    + destruct (decide (Textproto.CanonicalMIMEHeaderKey k1 = c)) as [Hc|Hc].
      * right. rewrite Header_set_header. unfold Header_Set. simpl.
        rewrite Hc, lookup_insert_eq.
        rewrite (Hsame k1 v1); [reflexivity|left|exact Hc].
      * destruct Hsrc as [(k' & Hin & Hk')|Hreq].
        -- apply elem_of_cons in Hin as [[= -> ->]|Hin]; [contradiction|].
           left. eauto.
        -- right. rewrite Header_set_header. unfold Header_Set. simpl.
           rewrite lookup_insert_ne by exact Hc. exact Hreq.
Qed.

(** The same for a [range] over a map. *)
Lemma range_Set_lookup
    (range_order : gmap string string -> list (string * string))
    (headers : gmap string string) (req : Request) (k v : string) :
  range_order headers ≡ₚ map_to_list headers ->
  headers !! k = Some v ->
  (forall k' v', headers !! k' = Some v' ->
     Textproto.CanonicalMIMEHeaderKey k' = Textproto.CanonicalMIMEHeaderKey k ->
     v' = v) ->
  Header (range_Set range_order headers req) !! Textproto.CanonicalMIMEHeaderKey k
  = Some [v].
Proof.
  intros Hperm Hk Hsame. unfold range_Set. apply set_headers_lookup.
  - intros k' v' Hin. apply Hsame.
    rewrite Hperm in Hin. apply elem_of_map_to_list in Hin. exact Hin.
  - left. exists k. split; [|reflexivity].
    rewrite Hperm. apply elem_of_map_to_list. exact Hk.
Qed.

(** C5 (amended): the header decorator hands to the wrapped transport a
    request that carries, for every entry of its mapping whose header
    name is not given a different value by another entry (two keys name
    the same header when their canonical forms agree), the value of that
    entry -- whatever the caller had set for that header. *)
Theorem headerTransport_RoundTrip_sets_headers
    (network : nat -> Request -> RoundTripResult)
    (range_order : gmap string string -> list (string * string))
    (base : RoundTripper) (headers : gmap string string)
    (n : nat) (req : Request) (k v : string) :
  range_order headers ≡ₚ map_to_list headers ->
  headers !! k = Some v ->
  (forall k' v', headers !! k' = Some v' ->
     Textproto.CanonicalMIMEHeaderKey k' = Textproto.CanonicalMIMEHeaderKey k ->
     v' = v) ->
  exists stamped,
    RoundTrip network range_order (headerTransport_ptr base headers) n req
    = RoundTrip network range_order base n stamped
    /\ Header stamped !! Textproto.CanonicalMIMEHeaderKey k = Some [v]
    /\ Header_Get k (Header stamped) = v.
Proof.
  intros Hperm Hk Hsame.
  exists (range_Set range_order headers req).
  split; [reflexivity|].
  pose proof (range_Set_lookup range_order headers req k v Hperm Hk Hsame) as Hl.
  split; [exact Hl|]. unfold Header_Get. rewrite Hl. reflexivity.
Qed.

Lemma headerTransport_RoundTrip_sets_headers_witness :
  listed_order {["X-App" := "myapp"]} ≡ₚ map_to_list ({["X-App" := "myapp"]} : gmap string string)
  /\ ({["X-App" := "myapp"]} : gmap string string) !! "X-App" = Some "myapp"
  /\ exists stamped,
       RoundTrip (status_network []) listed_order
         (headerTransport_ptr nil_RoundTripper {["X-App" := "myapp"]}) 0
         (mkRequest "GET" "http://example.test/" {["X-App" := ["other"]]} None)
       = RoundTrip (status_network []) listed_order nil_RoundTripper 0 stamped
       /\ Header stamped !! Textproto.CanonicalMIMEHeaderKey "X-App" = Some ["myapp"]
       /\ Header_Get "X-App" (Header stamped) = "myapp".
Proof.
  split; [reflexivity|]. split; [reflexivity|].
  apply (headerTransport_RoundTrip_sets_headers (status_network []) listed_order
           nil_RoundTripper {["X-App" := "myapp"]} 0
           (mkRequest "GET" "http://example.test/" {["X-App" := ["other"]]} None)
           "X-App" "myapp").
  - reflexivity.
  - reflexivity.
  - intros k' v' Hk' _.
    apply lookup_singleton_Some in Hk' as [_ <-]. reflexivity.
Defined.

(** C5 as stated fails for a mapping that spells one header name in two
    ways: both keys are stored under ["X-App"], so only one of the two
    entries is carried (which one depends on the enumeration order). *)
Lemma headerTransport_colliding_names :
  colliding_headers !! "x-app" = Some "a"
  /\ listed_order colliding_headers ≡ₚ map_to_list colliding_headers
  /\ Header (snd (RoundTrip (status_network []) listed_order
                    (headerTransport_ptr nil_RoundTripper colliding_headers) 0
                    sample_request))
       !! Textproto.CanonicalMIMEHeaderKey "x-app" = Some ["b"].
Proof.
  split; [reflexivity|]. split; [reflexivity|]. vm_compute. reflexivity.
Qed.

(** No enumeration order rescues it: one stored value cannot equal both
    entries. *)
Remark colliding_headers_never_both
    (range_order : gmap string string -> list (string * string)) (req : Request) :
  ~ (forall k v, colliding_headers !! k = Some v ->
       Header (range_Set range_order colliding_headers req)
         !! Textproto.CanonicalMIMEHeaderKey k = Some [v]).
Proof.
  intros H.
  pose proof (H "x-app" "a" eq_refl) as Ha.
  pose proof (H "X-App" "b" eq_refl) as Hb.
  change (Textproto.CanonicalMIMEHeaderKey "x-app") with "X-App" in Ha.
  change (Textproto.CanonicalMIMEHeaderKey "X-App") with "X-App" in Hb.
  rewrite Ha in Hb. discriminate Hb.
Qed.

(** ** [WithTLSConfig] *)

(** C6: when the installed transport is not a [*http.Transport] (the nil
    interface, the header decorator, any other implementation),
    [WithTLSConfig] installs a newly allocated [http.Transport] whose only
    non-zero field is the TLS configuration, leaves every existing
    transport object as it was and keeps no reference to the transport
    installed before; when it is a [*http.Transport], the option updates
    the TLS configuration of that very object and changes no other field,
    no other object and no field of the client. *)
Theorem WithTLSConfig_effect (tlsConfig : option tls_Config)
    (hc : HTTPClient) (heap : TransportHeap) :
  ((forall p, Client_Transport (client hc) <> http_Transport_ptr p) ->
   exists p,
     heap !! p = None
     /\ WithTLSConfig tlsConfig hc heap
        = Some (mkHTTPClient
                  (mk_http_Client (http_Transport_ptr (Some p))
                     (Client_Timeout (client hc)))
                  (retryCount hc) (retryDelay hc) (logger hc) (backoff hc),
                <[p := mk_http_Transport tlsConfig None false false 0 0 false]> heap))
  /\ (forall p t,
        Client_Transport (client hc) = http_Transport_ptr (Some p) ->
        heap !! p = Some t ->
        exists t',
          WithTLSConfig tlsConfig hc heap = Some (hc, <[p := t']> heap)
          /\ TLSClientConfig t' = tlsConfig
          /\ Proxy t' = Proxy t
          /\ DisableKeepAlives t' = DisableKeepAlives t
          /\ DisableCompression t' = DisableCompression t
          /\ MaxIdleConns t' = MaxIdleConns t
          /\ IdleConnTimeout t' = IdleConnTimeout t
          /\ ForceAttemptHTTP2 t' = ForceAttemptHTTP2 t).
Proof.
  split.
  - intros Hnot. exists (alloc heap). split.
    + apply not_elem_of_dom. unfold alloc. apply is_fresh.
    + unfold WithTLSConfig.
      destruct (Client_Transport (client hc)) as [ | p | base hs | id];
        [reflexivity|exfalso; exact (Hnot p eq_refl)|reflexivity|reflexivity].
  - intros p t Hrt Hp. exists (set_TLSClientConfig tlsConfig t).
    unfold WithTLSConfig. rewrite Hrt, Hp. repeat split.
Qed.

Lemma WithTLSConfig_effect_witness :
  (exists p,
     (∅ : TransportHeap) !! p = None
     /\ WithTLSConfig (Some sample_tls)
          (set_Transport (headerTransport_ptr nil_RoundTripper {["X-App" := "myapp"]})
             (sample_client 0)) ∅
        = Some (mkHTTPClient (mk_http_Client (http_Transport_ptr (Some p)) 0)
                  0 Second log_Default (Some default_backoff),
                <[p := mk_http_Transport (Some sample_tls)
                         None false false 0 0 false]> ∅))
  /\ (exists t',
        WithTLSConfig (Some sample_tls)
          (set_Transport (http_Transport_ptr (Some 1%positive)) (sample_client 0))
          {[1%positive := sample_transport]}
        = Some (set_Transport (http_Transport_ptr (Some 1%positive)) (sample_client 0),
                <[1%positive := t']> {[1%positive := sample_transport]})
        /\ TLSClientConfig t' = Some sample_tls
        /\ Proxy t' = Some "http://proxy.test"%string
        /\ MaxIdleConns t' = 7).
Proof.
  split.
  - apply (proj1 (WithTLSConfig_effect (Some sample_tls)
             (set_Transport (headerTransport_ptr nil_RoundTripper {["X-App" := "myapp"]})
                (sample_client 0)) ∅)).
    intros p. discriminate.
  - edestruct (proj2 (WithTLSConfig_effect (Some sample_tls)
             (set_Transport (http_Transport_ptr (Some 1%positive)) (sample_client 0))
             {[1%positive := sample_transport]}) 1%positive sample_transport)
      as (t' & H1 & H2 & H3 & _ & _ & H4 & _); [reflexivity|reflexivity|].
    exists t'. repeat split; assumption.
Defined.

(** ** Body readers *)

(** C7: on a status outside 200..299 [ReadJSONResponseBody] returns an
    error, does not run the decoder, leaves the target and the unread
    bytes as they were and closes the body; on a status in 200..299 it
    returns what the decoder returns, with the target the decoder
    produced, and closes the body too. *)
Theorem ReadJSONResponseBody_spec (Target : Type)
    (json_Decode : ReadCloser -> Target -> bytes * Target * option error)
    (resp : Response) (target : Target) :
  (StatusCode resp < 200 \/ 300 <= StatusCode resp ->
   exists err resp',
     ReadJSONResponseBody Target json_Decode resp target
     = (Some err, target, resp', [Op_Close])
     /\ closed (Body resp') = true
     /\ unread (Body resp') = unread (Body resp))
  /\ (200 <= StatusCode resp < 300 ->
      exists resp',
        ReadJSONResponseBody Target json_Decode resp target
        = (snd (json_Decode (Body resp) target),
           snd (fst (json_Decode (Body resp) target)),
           resp', [Op_Decode; Op_Close])
        /\ closed (Body resp') = true
        /\ unread (Body resp') = fst (fst (json_Decode (Body resp) target))).
Proof.
  unfold ReadJSONResponseBody. split.
  - intros Hout.
    assert (Hc : (StatusCode resp <? 200) || (StatusCode resp >=? 300) = true).
    { apply orb_true_iff. destruct Hout; [left|right]; lia. }
    rewrite Hc. eexists _, _. split; [reflexivity|]. split; reflexivity.
  - intros Hin.
    assert (Hc : (StatusCode resp <? 200) || (StatusCode resp >=? 300) = false).
    { apply orb_false_iff. split; lia. }
    rewrite Hc. destruct (json_Decode (Body resp) target) as [[rest target'] err].
    eexists. split; [reflexivity|]. split; reflexivity.
Qed.

Lemma ReadJSONResponseBody_spec_witness :
  (exists err resp',
     ReadJSONResponseBody string sample_Decode
       (mkResponse 404 (mkReadCloser "not found" None false)) "before"%string
     = (Some err, "before"%string, resp', [Op_Close])
     /\ closed (Body resp') = true
     /\ unread (Body resp') = "not found"%string)
  /\ (exists resp',
        ReadJSONResponseBody string sample_Decode
          (mkResponse 200 (mkReadCloser "payload" None false)) "before"%string
        = (None, "payload"%string, resp', [Op_Decode; Op_Close])
        /\ closed (Body resp') = true
        /\ unread (Body resp') = ""%string).
Proof.
  split.
  - apply (proj1 (ReadJSONResponseBody_spec string sample_Decode
             (mkResponse 404 (mkReadCloser "not found" None false)) "before"%string)).
    right. simpl. lia.
  - apply (proj2 (ReadJSONResponseBody_spec string sample_Decode
             (mkResponse 200 (mkReadCloser "payload" None false)) "before"%string)).
    simpl. lia.
Defined.

(** ** [PostJSON] *)

Section PostJSONFacts.

Variable network : nat -> Request -> RoundTripResult.
Variable range_order : gmap string string -> list (string * string).
Variable url_ok : string -> bool.
Variable Value : Type.
Variable json_Marshal : Value -> bytes + error.

(** X20.  A value that cannot be encoded is reported before anything is
    sent, and before the caller's map is touched. *)
Lemma PostJSON_unserializable fuel hc url v l maps err :
  json_Marshal v = inr err ->
  PostJSON network range_order url_ok Value json_Marshal fuel hc url v (Some l) maps
  = (Some ((None, Some err), []), maps).
Proof. intros Hm. unfold PostJSON. rewrite Hm. reflexivity. Qed.

Lemma PostJSON_unserializable_nil fuel hc url v maps err :
  json_Marshal v = inr err ->
  fst (PostJSON network range_order url_ok Value json_Marshal fuel hc url v None maps)
  = Some ((None, Some err), []).
Proof. intros Hm. unfold PostJSON. rewrite Hm. reflexivity. Qed.

(** X19.  The request [PostJSON] passes to [Do] names the JSON content
    type when no key of the caller's map other than ["Content-Type"]
    itself denotes that header. *)
Lemma PostJSON_request_content_type fuel hc url v l maps m body :
  range_order (<["Content-Type" := "application/json"]> m)
    ≡ₚ map_to_list (<["Content-Type" := "application/json"]> m) ->
  url_ok url = true ->
  json_Marshal v = inl body ->
  maps !! l = Some m ->
  (forall k w, m !! k = Some w ->
     Textproto.CanonicalMIMEHeaderKey k = "Content-Type"%string ->
     k = "Content-Type"%string) ->
  exists req,
    fst (PostJSON network range_order url_ok Value json_Marshal fuel hc url v
           (Some l) maps)
    = Do network range_order fuel hc req
    /\ Header req !! "Content-Type"%string = Some ["application/json"%string].
Proof.
  intros Hperm Hurl Hm Hl Halias.
  unfold PostJSON. rewrite Hm. simpl fst.
  rewrite lookup_total_insert_eq, (lookup_total_correct _ _ _ Hl).
  unfold Post, http_NewRequest. rewrite Hurl.
  eexists. split; [reflexivity|].
  apply (range_Set_lookup range_order _ _ "Content-Type" "application/json" Hperm).
  - apply lookup_insert_eq.
  - intros k' v' Hk' Hc.
    destruct (decide (k' = "Content-Type"%string)) as [->|Hne].
    + rewrite lookup_insert_eq in Hk'. congruence.
    + rewrite lookup_insert_ne in Hk' by congruence.
      exfalso. apply Hne. eapply Halias; [exact Hk'|exact Hc].
Qed.

End PostJSONFacts.

(** C8 (the code departs from it): the caller passes a map that names
    the content type in lower case.  [PostJSON] adds the key
    ["Content-Type"] next to it; both keys denote the same header, and when
    the [range] in [Post] visits ["content-type"] last, the request that
    is sent carries [text/plain]. *)
Theorem PostJSON_content_type_lost_to_alias :
  (forall m, reversed_order m ≡ₚ map_to_list m)
  /\ lowercase_maps !! 1%positive = Some {["content-type" := "text/plain"]}
  /\ exists handed wire,
       fst (PostJSON (status_network []) reversed_order any_url SampleValue
              sample_Marshal 1 (sample_client 0) "http://example.test/"
              sample_true (Some 1%positive) lowercase_maps)
       = Some ((Some ok_response, None), [Ev_send handed wire])
       /\ Header_Get "Content-Type" (Header handed) = "text/plain"%string
       /\ Header_Get "Content-Type" (Header wire) = "text/plain"%string.
Proof.
  split; [apply Permutation_reversed_order|]. split; [reflexivity|].
  eexists _, _. split; [vm_compute; reflexivity|].
  split; vm_compute; reflexivity.
Qed.

(** C10 (amended): when the value can be encoded, [PostJSON] stores
    ["Content-Type" := "application/json"] in the caller's (non-nil)
    map, over any entry under that key, and the caller finds the map so
    afterwards; the call returns whenever [retryCount] is below the
    largest [int]. *)
Theorem PostJSON_sets_content_type_in_caller_map
    (network : nat -> Request -> RoundTripResult)
    (range_order : gmap string string -> list (string * string))
    (url_ok : string -> bool) (Value : Type) (json_Marshal : Value -> bytes + error)
    (fuel : nat) (hc : HTTPClient) (url : string) (v : Value)
    (l : positive) (maps : MapHeap) (m : gmap string string) (body : bytes) :
  json_Marshal v = inl body ->
  maps !! l = Some m ->
  snd (PostJSON network range_order url_ok Value json_Marshal fuel hc url v
         (Some l) maps)
  = <[l := <["Content-Type" := "application/json"]> m]> maps
  /\ (retryCount hc < GoInt.max_int ->
      (Z.to_nat (retryCount hc + 1) < fuel)%nat ->
      exists res,
        fst (PostJSON network range_order url_ok Value json_Marshal fuel hc url v
               (Some l) maps) = Some res).
Proof.
  intros Hm Hl. unfold PostJSON. rewrite Hm. simpl fst. simpl snd.
  rewrite (lookup_total_correct _ _ _ Hl). split; [reflexivity|].
  intros Hrc Hfuel. unfold Post.
  destruct (http_NewRequest url_ok "POST" url (Some body)) as [req|err]; [|eauto].
  apply Do_returns; assumption.
Qed.

Lemma PostJSON_sets_content_type_in_caller_map_witness :
  sample_Marshal sample_true = inl "true"%string
  /\ lowercase_maps !! 1%positive = Some {["content-type" := "text/plain"]}
  /\ retryCount (sample_client 0) < GoInt.max_int
  /\ (Z.to_nat (retryCount (sample_client 0) + 1) < 2)%nat
  /\ snd (PostJSON (status_network []) listed_order any_url SampleValue
            sample_Marshal 2 (sample_client 0) "http://example.test/"
            sample_true (Some 1%positive) lowercase_maps)
     = <[1%positive := <["Content-Type" := "application/json"]>
                         {["content-type" := "text/plain"]}]> lowercase_maps
  /\ exists res,
       fst (PostJSON (status_network []) listed_order any_url SampleValue
              sample_Marshal 2 (sample_client 0) "http://example.test/"
              sample_true (Some 1%positive) lowercase_maps) = Some res.
Proof.
  split; [reflexivity|]. split; [reflexivity|]. split; [reflexivity|].
  split; [vm_compute; lia|].
  destruct (PostJSON_sets_content_type_in_caller_map (status_network [])
              listed_order any_url SampleValue sample_Marshal 2 (sample_client 0)
              "http://example.test/" sample_true 1%positive lowercase_maps
              {["content-type" := "text/plain"]} "true"%string
              ltac:(reflexivity) ltac:(reflexivity)) as [Hmap Hret].
  split; [exact Hmap|].
  apply Hret; [reflexivity|vm_compute; lia].
Defined.

(** C10 as stated fails for a value that cannot be encoded: [PostJSON]
    returns the encoder's error before it writes to the map, and the
    caller's map is found unchanged. *)
Lemma PostJSON_unserializable_leaves_map :
  empty_maps !! 1%positive = Some ∅
  /\ PostJSON (status_network []) listed_order any_url SampleValue sample_Marshal
       1 (sample_client 0) "http://example.test/" sample_channel
       (Some 1%positive) empty_maps
     = (Some ((None, Some (external_error "json: unsupported type: chan int")), []),
        empty_maps)
  /\ empty_maps !! 1%positive
     <> Some (<["Content-Type" := "application/json"]> ∅).
Proof.
  split; [reflexivity|]. split; [reflexivity|].
  intros H. vm_compute in H. discriminate H.
Qed.

(** * Further properties of the retry loop *)

Section DoTrace.

Variable network : nat -> Request -> RoundTripResult.
Variable range_order : gmap string string -> list (string * string).

(** The three ways one evaluation of the loop condition can go. *)
Lemma Do_from_inv fuel hc i lastErr n req res tr :
  Do_from network range_order (S fuel) hc i lastErr n req = Some (res, tr) ->
  (retryCount hc < i /\ res = (None, lastErr) /\ tr = [])
  \/ (i <= retryCount hc
      /\ exists resp,
           network n (wire_request range_order (Client_Transport (client hc)) req)
           = inl resp
           /\ is_2xx (StatusCode resp) = true
           /\ res = (Some resp, None)
           /\ tr = pause_events hc i
                   ++ [Ev_send req
                         (wire_request range_order (Client_Transport (client hc)) req)])
  \/ (i <= retryCount hc
      /\ attempt_succeeds
           (network n (wire_request range_order (Client_Transport (client hc)) req))
         = false
      /\ exists tr',
           Do_from network range_order fuel hc (GoInt.wrap_int (i + 1))
             (Some (attempt_error
                      (network n (wire_request range_order
                                    (Client_Transport (client hc)) req))))
             (S n) (wire_request range_order (Client_Transport (client hc)) req)
           = Some (res, tr')
           /\ tr = pause_events hc i
                   ++ Ev_send req
                        (wire_request range_order (Client_Transport (client hc)) req)
                      :: failure_events hc
                           (network n (wire_request range_order
                                         (Client_Transport (client hc)) req))
                   ++ tr').
Proof.
  unfold Do_from; fold Do_from.
  destruct (Z.leb_spec i (retryCount hc)) as [Hi|Hi].
  - unfold client_Do. rewrite RoundTrip_wire.
    destruct (network n _) as [resp|err] eqn:Hnet.
    + fold (is_2xx (StatusCode resp)).
      destruct (is_2xx (StatusCode resp)) eqn:Hok.
      * intros [= <- <-]. right. left. split; [exact Hi|].
        exists resp. split; [reflexivity|]. split; [exact Hok|].
        split; reflexivity.
      * intros H. apply emit_inv in H as (tr' & HDo & ->).
        right. right. split; [exact Hi|]. split; [exact Hok|].
        exists tr'. split; [exact HDo|].
        unfold pause_events. rewrite <- app_assoc. reflexivity.
    + intros H. apply emit_inv in H as (tr' & HDo & ->).
      right. right. split; [exact Hi|]. split; [reflexivity|].
      exists tr'. split; [exact HDo|].
      unfold pause_events. rewrite <- app_assoc. reflexivity.
  - intros [= <- <-]. left. repeat split; [lia].
Qed.

Lemma flat_map_seq_shift {A} (f : nat -> list A) (k : nat) :
  forall a, flat_map f (seq (S a) k) = flat_map (fun t => f (S t)) (seq a k).
Proof.
  induction k as [|k IH]; intros a; [reflexivity|].
  simpl. rewrite IH. reflexivity.
Qed.

Lemma sends_pause_events hc i : sends (pause_events hc i) = [].
Proof. unfold pause_events. destruct (0 <? i); reflexivity. Qed.

Lemma sends_failure_events hc r : sends (failure_events hc r) = [].
Proof. destruct r; reflexivity. Qed.

Lemma sends_after_events hc r : sends (after_events hc r) = [].
Proof.
  unfold after_events. destruct (attempt_succeeds r);
    [reflexivity|apply sends_failure_events].
Qed.

Lemma sends_attempt_block hc i n req t :
  sends (attempt_block network range_order hc i n req t)
  = [(Nat.iter t (wire_request range_order (Client_Transport (client hc))) req,
      Nat.iter (S t) (wire_request range_order (Client_Transport (client hc))) req)].
Proof.
  unfold attempt_block. rewrite sends_app, sends_pause_events.
  change (sends (?e :: ?l)) with (sends [e] ++ sends l).
  rewrite sends_after_events. reflexivity.
Qed.

(** The block of iteration [S t] is the block of iteration [t] of the
    loop as the first iteration leaves it. *)
Lemma attempt_block_succ hc i n req t :
  attempt_block network range_order hc i n req (S t)
  = attempt_block network range_order hc (GoInt.wrap_int (i + 1)) (S n)
      (wire_request range_order (Client_Transport (client hc)) req) t.
Proof.
  unfold attempt_block, loop_counter.
  rewrite !(Nat.iter_succ_r (S t)), !(Nat.iter_succ_r t).
  replace (n + S t)%nat with (S n + t)%nat by lia. reflexivity.
Qed.

(** A run that returns is a sequence of attempts: its trace is the
    concatenation of their blocks, and its result is that of the last. *)
Lemma Do_from_run fuel :
  forall hc i lastErr n req res tr,
    Do_from network range_order fuel hc i lastErr n req = Some (res, tr) ->
    tr = flat_map (attempt_block network range_order hc i n req)
           (seq 0 (length (sends tr)))
    /\ res = loop_result network range_order hc lastErr n req (length (sends tr)).
Proof.
  induction fuel as [|fuel IH]; intros hc i lastErr n req res tr HDo;
    [discriminate|].
  apply Do_from_inv in HDo
    as [(_ & -> & ->)|[(_ & resp & Hnet & Hok & -> & ->)|(_ & Hfail & tr' & HDo & ->)]].
  - split; reflexivity.
  - rewrite sends_app, sends_pause_events. simpl length. simpl seq.
    split.
    + simpl flat_map. rewrite app_nil_r. unfold attempt_block, loop_counter.
      simpl Nat.iter. rewrite Nat.add_0_r, Hnet. unfold after_events. simpl.
      rewrite Hok. reflexivity.
    + unfold loop_result. simpl Nat.iter. rewrite Nat.add_0_r, Hnet, Hok.
      reflexivity.
  - apply IH in HDo as [Htr Hres].
    assert (Hlen : length (sends (pause_events hc i
                     ++ Ev_send req (wire_request range_order
                                       (Client_Transport (client hc)) req)
                        :: failure_events hc
                             (network n (wire_request range_order
                                           (Client_Transport (client hc)) req))
                     ++ tr'))
                   = S (length (sends tr'))).
    { rewrite sends_app, sends_pause_events.
      change (sends (?e :: ?l)) with (sends [e] ++ sends l).
      rewrite sends_app, sends_failure_events. reflexivity. }
    rewrite Hlen. split.
    + simpl seq. simpl flat_map. rewrite flat_map_seq_shift.
      rewrite (flat_map_ext _ _ (attempt_block_succ hc i n req)).
      rewrite <- Htr.
      unfold attempt_block at 1, loop_counter. simpl Nat.iter.
      rewrite Nat.add_0_r. unfold after_events. rewrite Hfail.
      rewrite <- app_assoc. reflexivity.
    + rewrite Hres. unfold loop_result.
      destruct (length (sends tr')) as [|k'].
      * simpl Nat.iter. rewrite Nat.add_0_r.
        destruct (network n _) as [resp|err]; simpl in Hfail.
        -- rewrite Hfail. reflexivity.
        -- reflexivity.
      * rewrite (Nat.iter_succ_r (S k')).
        replace (n + S k')%nat with (S n + k')%nat by lia. reflexivity.
Qed.

Lemma flat_map_flat_map {A B C} (g : B -> list C) (f : A -> list B) (l : list A) :
  flat_map g (flat_map f l) = flat_map (fun x => flat_map g (f x)) l.
Proof.
  induction l as [|x l IH]; [reflexivity|].
  simpl. rewrite flat_map_app, IH. reflexivity.
Qed.

Lemma flat_map_singleton {A B} (f : A -> B) (l : list A) :
  flat_map (fun x => [f x]) l = map f l.
Proof. induction l as [|x l IH]; [reflexivity|]. simpl. rewrite IH. reflexivity. Qed.

Lemma flat_map_seq_ext {A} (f g : nat -> list A) (k : nat) :
  forall a,
    (forall t, (a <= t < a + k)%nat -> f t = g t) ->
    flat_map f (seq a k) = flat_map g (seq a k).
Proof.
  induction k as [|k IH]; intros a Hfg; [reflexivity|].
  simpl. rewrite (Hfg a) by lia. rewrite (IH (S a)); [reflexivity|].
  intros t Ht. apply Hfg. lia.
Qed.

Lemma closes_app (a b : list Event) : closes (a ++ b) = closes a ++ closes b.
Proof. unfold closes. apply flat_map_app. Qed.

Lemma delays_attempt_block hc i n req t :
  delays (attempt_block network range_order hc i n req t)
  = retry_pause hc (loop_counter i t).
Proof.
  unfold attempt_block. rewrite delays_app.
  change (delays (?e :: ?l)) with (delays [e] ++ delays l).
  assert (Ha : forall r, delays (after_events hc r) = []).
  { intros r. unfold after_events.
    destruct (attempt_succeeds r); [reflexivity|destruct r; reflexivity]. }
  rewrite Ha. simpl. rewrite app_nil_r.
  unfold pause_events, retry_pause. destruct (0 <? loop_counter i t); reflexivity.
Qed.

Lemma closes_attempt_block hc i n req t :
  closes (attempt_block network range_order hc i n req t)
  = discarded
      (network (n + t)
         (Nat.iter (S t) (wire_request range_order (Client_Transport (client hc))) req)).
Proof.
  unfold attempt_block. rewrite closes_app.
  change (closes (?e :: ?l)) with (closes [e] ++ closes l).
  assert (Hp : closes (pause_events hc (loop_counter i t)) = []).
  { unfold pause_events. destruct (0 <? loop_counter i t); reflexivity. }
  rewrite Hp. simpl. unfold after_events, discarded.
  destruct (network (n + t) _) as [resp|err]; simpl; [|reflexivity].
  destruct (is_2xx (StatusCode resp)); reflexivity.
Qed.

(** Below the machine limit the loop counter counts the iterations. *)
Lemma loop_counter_small i t :
  GoInt.min_int <= i -> i + Z.of_nat t <= GoInt.max_int ->
  loop_counter i t = i + Z.of_nat t.
Proof.
  intros Hi. induction t as [|t IH]; intros Ht.
  - simpl. lia.
  - unfold loop_counter in *. simpl Nat.iter. rewrite IH by lia.
    rewrite wrap_int_id by lia. lia.
Qed.

(** The number of attempts of a loop entered with counter [i]. *)
Lemma Do_from_attempts_le fuel :
  forall hc i lastErr n req res tr,
    0 <= i <= retryCount hc + 1 -> retryCount hc < GoInt.max_int ->
    Do_from network range_order fuel hc i lastErr n req = Some (res, tr) ->
    (length (sends tr) <= Z.to_nat (retryCount hc + 1 - i))%nat.
Proof.
  induction fuel as [|fuel IH]; intros hc i lastErr n req res tr Hi Hrc HDo;
    [discriminate|].
  apply Do_from_inv in HDo
    as [(_ & -> & ->)|[(Hle & resp & _ & _ & -> & ->)|(Hle & _ & tr' & HDo & ->)]].
  - simpl. lia.
  - rewrite sends_app, sends_pause_events. simpl. lia.
  - rewrite wrap_int_id in HDo by (unfold GoInt.min_int, GoInt.max_int in *; lia).
    apply IH in HDo; [|lia|lia].
    rewrite sends_app, sends_pause_events.
    change (sends (?e :: ?l)) with (sends [e] ++ sends l).
    rewrite sends_app, sends_failure_events. simpl. lia.
Qed.

Lemma same_envelope_refl (a : Request) : same_envelope a a.
Proof. repeat split. Qed.

Lemma same_envelope_trans (a b c : Request) :
  same_envelope a b -> same_envelope b c -> same_envelope a c.
Proof.
  intros (H1 & H2 & H3) (G1 & G2 & G3).
  repeat split; [rewrite H1|rewrite H2|rewrite H3]; assumption.
Qed.

(** Neither an update of headers nor a transport chain changes the
    method, the target or the body of a request. *)
Lemma same_envelope_fold (es : list (string * string)) :
  forall req, same_envelope req (fold_left set_header es req).
Proof.
  induction es as [|kv es IH]; intros req; [apply same_envelope_refl|].
  simpl. eapply same_envelope_trans; [|apply IH]. repeat split.
Qed.



(** The requests of a run, attempt by attempt. *)
Lemma Do_from_sends fuel hc i lastErr n req res tr :
  Do_from network range_order fuel hc i lastErr n req = Some (res, tr) ->
  sends tr
  = map (fun t =>
           (Nat.iter t (wire_request range_order (Client_Transport (client hc))) req,
            Nat.iter (S t) (wire_request range_order (Client_Transport (client hc))) req))
      (seq 0 (length (sends tr))).
Proof.
  intros HDo. apply Do_from_run in HDo as [Htr _].
  rewrite Htr at 1. unfold sends at 1. rewrite flat_map_flat_map.
  rewrite <- flat_map_singleton. apply flat_map_ext. intros t.
  apply (sends_attempt_block hc i n req t).
Qed.


(** The number of attempts of [Do]. *)
Lemma Do_attempts_le fuel hc req res tr :
  retryCount hc < GoInt.max_int ->
  Do network range_order fuel hc req = Some (res, tr) ->
  (length (sends tr) <= Z.to_nat (retryCount hc + 1))%nat.
Proof.
  intros Hrc HDo. unfold Do in HDo.
  destruct (Z_lt_ge_dec (retryCount hc) 0) as [Hneg|Hpos].
  - destruct fuel as [|fuel]; [discriminate|].
    rewrite Do_from_exit in HDo by lia. injection HDo as _ <-. simpl. lia.
  - apply Do_from_attempts_le in HDo; [|lia|exact Hrc].
    rewrite Z.sub_0_r in HDo. exact HDo.
Qed.

End DoTrace.

Lemma discarded_non_2xx (r : RoundTripResult) (x : Response) :
  In x (discarded r) -> is_2xx (StatusCode x) = false.
Proof.
  destruct r as [resp|err]; simpl; [|intros []].
  destruct (is_2xx (StatusCode resp)) eqn:H; simpl; [intros []|].
  intros [<-|[]]. exact H.
Qed.

(** X1.  The responses whose body [Do] closes are exactly the responses
    with a status outside 200..299 that its attempts received, in the
    order of the attempts. *)
Theorem Do_closes_discarded_responses
    (network : nat -> Request -> RoundTripResult)
    (range_order : gmap string string -> list (string * string))
    (fuel : nat) (hc : HTTPClient) (req : Request) (res : DoResult)
    (tr : list Event) :
  Do network range_order fuel hc req = Some (res, tr) ->
  closes tr
  = flat_map (fun t => discarded (attempt_outcome network range_order hc req t))
      (seq 0 (length (sends tr))).
Proof.
  intros HDo. unfold Do in HDo.
  apply Do_from_run in HDo as [Htr _].
  rewrite Htr at 1. unfold closes at 1. rewrite flat_map_flat_map.
  apply flat_map_ext. intros t.
  apply (closes_attempt_block network range_order hc 0 0 req t).
Qed.

Lemma Do_closes_discarded_responses_witness :
  exists res tr,
    Do (status_network [500; 404; 201]) listed_order 5 (sample_client 5)
      sample_request = Some (res, tr)
    /\ closes tr = [mkResponse 500 empty_body; mkResponse 404 empty_body].
Proof.
  eexists _, _. split; [vm_compute; reflexivity|].
  eapply (Do_closes_discarded_responses (status_network [500; 404; 201])
            listed_order 5 (sample_client 5) sample_request).
  vm_compute. reflexivity.
Defined.

(** X2.  [Do] never returns a response together with an error: a
    returned response has a status in 200..299, comes with a nil error
    and has not been closed; and when no response is returned the error is
    nil only if no attempt was made. *)
Theorem Do_result_shape
    (network : nat -> Request -> RoundTripResult)
    (range_order : gmap string string -> list (string * string))
    (fuel : nat) (hc : HTTPClient) (req : Request)
    (r : option Response) (e : option error) (tr : list Event) :
  Do network range_order fuel hc req = Some ((r, e), tr) ->
  (forall resp, r = Some resp ->
     e = None /\ is_2xx (StatusCode resp) = true /\ ~ In resp (closes tr))
  /\ (r = None -> (e = None <-> sends tr = [])).
Proof.
  intros HDo.
  assert (Hcl : forall x, In x (closes tr) -> is_2xx (StatusCode x) = false).
  { intros x Hx. unfold Do in HDo.
    apply Do_from_run in HDo as [Htr _].
    rewrite Htr in Hx. unfold closes in Hx. rewrite flat_map_flat_map in Hx.
    apply in_flat_map in Hx as (t & _ & Hx).
    change (In x (closes (attempt_block network range_order hc 0 0 req t))) in Hx.
    rewrite closes_attempt_block in Hx. eapply discarded_non_2xx. exact Hx. }
  unfold Do in HDo. apply Do_from_run in HDo as [_ Hres].
  unfold loop_result in Hres.
  destruct (length (sends tr)) as [|k] eqn:Hk.
  - injection Hres as -> ->. split; [intros resp [=]|].
    intros _. split; [intros _|reflexivity].
    destruct (sends tr); [reflexivity|discriminate].
  - assert (Hne : sends tr <> []) by (intros H0; rewrite H0 in Hk; discriminate).
    destruct (network _ _) as [resp|err].
    + destruct (is_2xx (StatusCode resp)) eqn:Hok; injection Hres as -> ->.
      * split; [|intros [=]].
        intros resp' [= <-]. split; [reflexivity|]. split; [exact Hok|].
        intros Hin. apply Hcl in Hin. congruence.
      * split; [intros resp' [=]|]. intros _. split; [intros [=]|contradiction].
    + injection Hres as -> ->.
      split; [intros resp' [=]|]. intros _. split; [intros [=]|contradiction].
Qed.

Lemma Do_result_shape_witness :
  exists tr,
    Do (status_network [500; 201]) listed_order 5 (sample_client 5) sample_request
    = Some ((Some (mkResponse 201 empty_body), None), tr)
    /\ (None : option error) = None
    /\ is_2xx (StatusCode (mkResponse 201 empty_body)) = true
    /\ ~ In (mkResponse 201 empty_body) (closes tr).
Proof.
  eexists. split; [vm_compute; reflexivity|].
  apply (proj1 (Do_result_shape (status_network [500; 201]) listed_order 5
           (sample_client 5) sample_request (Some (mkResponse 201 empty_body))
           None _ ltac:(vm_compute; reflexivity)) (mkResponse 201 empty_body)
           eq_refl).
Defined.

(** X3.  With a retry count below the largest [int], [Do] makes at most
    [retryCount + 1] send attempts, and at least one when the retry count
    is not negative. *)
Theorem Do_attempts_bounded
    (network : nat -> Request -> RoundTripResult)
    (range_order : gmap string string -> list (string * string))
    (fuel : nat) (hc : HTTPClient) (req : Request) (res : DoResult)
    (tr : list Event) :
  retryCount hc < GoInt.max_int ->
  Do network range_order fuel hc req = Some (res, tr) ->
  (length (sends tr) <= Z.to_nat (retryCount hc + 1))%nat
  /\ (0 <= retryCount hc -> (1 <= length (sends tr))%nat).
Proof.
  intros Hrc HDo. unfold Do in HDo. split.
  - destruct (Z_lt_ge_dec (retryCount hc) 0) as [Hneg|Hpos].
    + destruct fuel as [|fuel]; [discriminate|].
      rewrite Do_from_exit in HDo by lia. injection HDo as _ <-. simpl. lia.
    + apply Do_from_attempts_le in HDo; [|lia|exact Hrc].
      rewrite Z.sub_0_r in HDo. exact HDo.
  - intros Hpos. destruct fuel as [|fuel]; [discriminate|].
    apply Do_from_inv in HDo
      as [(Hlt & _)|[(_ & resp & _ & _ & _ & ->)|(_ & _ & tr' & _ & ->)]].
    + lia.
    + rewrite sends_app, sends_pause_events. simpl. lia.
    + rewrite sends_app, sends_pause_events. simpl. lia.
Qed.

Lemma Do_attempts_bounded_witness :
  retryCount (sample_client 2) < GoInt.max_int
  /\ exists res tr,
       Do (status_network [500; 500; 500; 500]) listed_order 9 (sample_client 2)
         sample_request = Some (res, tr)
       /\ (length (sends tr) <= Z.to_nat (retryCount (sample_client 2) + 1))%nat
       /\ (0 <= retryCount (sample_client 2) -> (1 <= length (sends tr))%nat).
Proof.
  split; [reflexivity|].
  eexists _, _. split; [vm_compute; reflexivity|].
  eapply (Do_attempts_bounded (status_network [500; 500; 500; 500]) listed_order 9
            (sample_client 2) sample_request); [reflexivity|vm_compute; reflexivity].
Defined.

Lemma Do_delays_by_counter
    (network : nat -> Request -> RoundTripResult)
    (range_order : gmap string string -> list (string * string))
    (fuel : nat) (hc : HTTPClient) (req : Request) (res : DoResult)
    (tr : list Event) :
  retryCount hc < GoInt.max_int ->
  Do network range_order fuel hc req = Some (res, tr) ->
  delays tr
  = flat_map (fun t => retry_pause hc (Z.of_nat t)) (seq 0 (length (sends tr))).
Proof.
  intros Hrc HDo.
  pose proof (Do_attempts_le network range_order fuel hc req res tr Hrc HDo) as Hk.
  unfold Do in HDo. apply Do_from_run in HDo as [Htr _].
  rewrite Htr at 1. unfold delays at 1. rewrite flat_map_flat_map.
  apply flat_map_seq_ext. intros t Ht.
  change (delays (attempt_block network range_order hc 0 0 req t)
          = retry_pause hc (Z.of_nat t)).
  rewrite delays_attempt_block, loop_counter_small;
    [reflexivity|unfold GoInt.min_int; lia|lia].
Qed.

(** X4.  With a retry count below the largest [int], [Do] does not sleep
    before its first attempt, and before its [t]-th retry it sleeps
    [backoff(t)] when a back-off function is set and [retryDelay] when the
    function is nil. *)
Theorem Do_delay_schedule
    (network : nat -> Request -> RoundTripResult)
    (range_order : gmap string string -> list (string * string))
    (fuel : nat) (hc : HTTPClient) (req : Request) (res : DoResult)
    (tr : list Event) :
  retryCount hc < GoInt.max_int ->
  Do network range_order fuel hc req = Some (res, tr) ->
  delays tr
  = map (fun t => match backoff hc with
                  | Some f => f (Z.of_nat t)
                  | None => retryDelay hc
                  end)
      (seq 1 (length (sends tr) - 1)).
Proof.
  intros Hrc HDo.
  rewrite (Do_delays_by_counter network range_order fuel hc req res tr Hrc HDo).
  destruct (length (sends tr)) as [|k]; [reflexivity|].
  simpl seq. simpl flat_map. rewrite Nat.sub_0_r.
  rewrite <- flat_map_singleton. apply flat_map_seq_ext.
  intros t Ht. unfold retry_pause.
  destruct (Z.ltb_spec 0 (Z.of_nat t)); [reflexivity|lia].
Qed.

Lemma Do_delay_schedule_witness :
  retryCount (mkHTTPClient (mk_http_Client nil_RoundTripper 0) 3 Second
                log_Default None) < GoInt.max_int
  /\ exists res tr,
       Do (status_network [500; 500; 200]) listed_order 9
         (mkHTTPClient (mk_http_Client nil_RoundTripper 0) 3 Second log_Default None)
         sample_request = Some (res, tr)
       /\ delays tr = [Second; Second].
Proof.
  split; [reflexivity|].
  eexists _, _. split; [vm_compute; reflexivity|].
  eapply (Do_delay_schedule (status_network [500; 500; 200]) listed_order 9
            (mkHTTPClient (mk_http_Client nil_RoundTripper 0) 3 Second log_Default None)
            sample_request); [reflexivity|vm_compute; reflexivity].
Defined.

(** X5.  On a client whose back-off function is the one installed by
    [WithExponentialBackoff B], with [|B| <= 2^53] nanoseconds and a retry
    count [N <= 1024] such that [|B| * 2^(N-1)] fits a [time.Duration],
    the delays of [Do] are [B, 2B, 4B, ...]: [B * 2^(t-1)] before the
    [t]-th retry. *)
Theorem Do_exponential_delays
    (network : nat -> Request -> RoundTripResult)
    (range_order : gmap string string -> list (string * string))
    (fuel : nat) (hc : HTTPClient) (req : Request) (res : DoResult)
    (tr : list Event) (B : Duration) :
  backoff hc = Some (exponential_backoff B) ->
  Z.abs B <= 2 ^ 53 -> retryCount hc <= 1024 ->
  Z.abs B * 2 ^ (retryCount hc - 1) < 2 ^ 63 ->
  Do network range_order fuel hc req = Some (res, tr) ->
  delays tr
  = map (fun t => B * 2 ^ (Z.of_nat t - 1)) (seq 1 (length (sends tr) - 1)).
Proof.
  intros Hb HB HN Hprod HDo.
  assert (Hrc : retryCount hc < GoInt.max_int)
    by (unfold GoInt.max_int; lia).
  pose proof (Do_attempts_le network range_order fuel hc req res tr Hrc HDo) as Hk.
  rewrite (Do_delays_by_counter network range_order fuel hc req res tr Hrc HDo).
  destruct (length (sends tr)) as [|k]; [reflexivity|].
  simpl seq. simpl flat_map. rewrite Nat.sub_0_r.
  rewrite <- flat_map_singleton. apply flat_map_seq_ext.
  intros t Ht. unfold retry_pause. rewrite Hb.
  destruct (Z.ltb_spec 0 (Z.of_nat t)); [|lia]. f_equal.
  apply exponential_backoff_exact; [exact HB|lia|].
  assert (Hle : 2 ^ (Z.of_nat t - 1) <= 2 ^ (retryCount hc - 1))
    by (apply Z.pow_le_mono_r; lia).
  nia.
Qed.

Lemma Do_exponential_delays_witness :
  Z.abs (100 * Millisecond) <= 2 ^ 53
  /\ Z.abs (100 * Millisecond) * 2 ^ (3 - 1) < 2 ^ 63
  /\ exists res tr,
       Do (status_network [500; 500; 500; 200]) listed_order 9
         (mkHTTPClient (mk_http_Client nil_RoundTripper 0) 3 0 log_Default
            (Some (exponential_backoff (100 * Millisecond))))
         sample_request = Some (res, tr)
       /\ delays tr = [100 * Millisecond; 200 * Millisecond; 400 * Millisecond].
Proof.
  split; [vm_compute; discriminate|]. split; [vm_compute; reflexivity|].
  eexists _, _. split; [vm_compute; reflexivity|].
  etransitivity;
    [eapply (Do_exponential_delays (status_network [500; 500; 500; 200])
               listed_order 9
               (mkHTTPClient (mk_http_Client nil_RoundTripper 0) 3 0 log_Default
                  (Some (exponential_backoff (100 * Millisecond))))
               sample_request _ _ (100 * Millisecond))
    |vm_compute; reflexivity].
  - reflexivity.
  - vm_compute. discriminate.
  - vm_compute. discriminate.
  - vm_compute. reflexivity.
  - vm_compute. reflexivity.
Defined.





(** * Further properties of the request helpers *)

Section HelperFacts.

Variable network : nat -> Request -> RoundTripResult.
Variable range_order : gmap string string -> list (string * string).
Variable url_ok : string -> bool.


End HelperFacts.



(** X9.  When [http.NewRequest] rejects the target, [PostJSON] of a value
    that can be encoded returns the error without sending anything; the
    caller's map has nevertheless received the ["Content-Type"] entry. *)
Theorem PostJSON_rejected_target
    (network : nat -> Request -> RoundTripResult)
    (range_order : gmap string string -> list (string * string))
    (url_ok : string -> bool) (Value : Type) (json_Marshal : Value -> bytes + error)
    (fuel : nat) (hc : HTTPClient) (url : string) (v : Value)
    (l : positive) (maps : MapHeap) (m : gmap string string) (body : bytes) :
  url_ok url = false ->
  json_Marshal v = inl body ->
  maps !! l = Some m ->
  exists err,
    PostJSON network range_order url_ok Value json_Marshal fuel hc url v (Some l) maps
    = (Some ((None, Some err), []),
       <[l := <["Content-Type" := "application/json"]> m]> maps).
Proof.
  intros Hurl Hm Hl. unfold PostJSON. rewrite Hm.
  rewrite (lookup_total_correct _ _ _ Hl).
  unfold Post, http_NewRequest. rewrite Hurl. eexists. reflexivity.
Qed.

Lemma PostJSON_rejected_target_witness :
  sample_Marshal sample_true = inl "true"%string
  /\ empty_maps !! 1%positive = Some ∅
  /\ exists err,
       PostJSON (status_network []) listed_order (fun _ => false) SampleValue
         sample_Marshal 3 (sample_client 0) "::bad" sample_true (Some 1%positive)
         empty_maps
       = (Some ((None, Some err), []),
          <[1%positive := <["Content-Type" := "application/json"]> ∅]> empty_maps).
Proof.
  split; [reflexivity|]. split; [reflexivity|].
  apply (PostJSON_rejected_target (status_network []) listed_order (fun _ => false)
           SampleValue sample_Marshal 3 (sample_client 0) "::bad" sample_true
           1%positive empty_maps ∅ "true"%string); reflexivity.
Defined.

(** * Further properties of the header decorator *)

(** A sequence of [Set]s leaves a canonical name alone when no entry is
    written under it. *)
Lemma set_headers_frame (es : list (string * string)) (c : string) :
  forall req,
    (forall k v, (k, v) ∈ es -> Textproto.CanonicalMIMEHeaderKey k <> c) ->
    Header (fold_left set_header es req) !! c = Header req !! c.
Proof.
  induction es as [|[k1 v1] es IH]; intros req Hno; [reflexivity|].
  simpl. rewrite IH.
  - rewrite Header_set_header. unfold Header_Set. simpl.
    apply lookup_insert_ne. apply (Hno k1 v1). left.
  - intros k v Hin. apply (Hno k v). right. exact Hin.
Qed.

Lemma wire_request_plain
    (range_order : gmap string string -> list (string * string))
    (rt : RoundTripper) (req : Request) :
  is_headerTransport rt = false -> wire_request range_order rt req = req.
Proof. destruct rt; simpl; [reflexivity|reflexivity|discriminate|reflexivity]. Qed.

(** X10.  The header decorator changes nothing but the headers it is
    configured with: a header whose name is not the canonical form of any
    key of the mapping reaches the wrapped transport as the caller set it
    (or absent), and so do the method, the target and the body. *)
Theorem headerTransport_RoundTrip_frame
    (network : nat -> Request -> RoundTripResult)
    (range_order : gmap string string -> list (string * string))
    (base : RoundTripper) (headers : gmap string string)
    (n : nat) (req : Request) (c : string) :
  range_order headers ≡ₚ map_to_list headers ->
  (forall k v, headers !! k = Some v -> Textproto.CanonicalMIMEHeaderKey k <> c) ->
  exists stamped,
    RoundTrip network range_order (headerTransport_ptr base headers) n req
    = RoundTrip network range_order base n stamped
    /\ Header stamped !! c = Header req !! c
    /\ same_envelope req stamped.
Proof.
  intros Hperm Hno. exists (range_Set range_order headers req).
  split; [reflexivity|]. split.
  - unfold range_Set. apply set_headers_frame.
    intros k v Hin. apply (Hno k v).
    rewrite Hperm in Hin. apply elem_of_map_to_list in Hin. exact Hin.
  - unfold range_Set. apply same_envelope_fold.
Qed.

Lemma headerTransport_RoundTrip_frame_witness :
  listed_order {["X-App" := "myapp"]}
    ≡ₚ map_to_list ({["X-App" := "myapp"]} : gmap string string)
  /\ exists stamped,
       RoundTrip (status_network []) listed_order
         (headerTransport_ptr nil_RoundTripper {["X-App" := "myapp"]}) 0
         (mkRequest "GET" "http://example.test/" {["Accept" := ["text/html"]]} None)
       = RoundTrip (status_network []) listed_order nil_RoundTripper 0 stamped
       /\ Header stamped !! "Accept"%string = Some ["text/html"%string]
       /\ same_envelope
            (mkRequest "GET" "http://example.test/" {["Accept" := ["text/html"]]} None)
            stamped.
Proof.
  split; [reflexivity|].
  destruct (headerTransport_RoundTrip_frame (status_network []) listed_order
              nil_RoundTripper {["X-App" := "myapp"]} 0
              (mkRequest "GET" "http://example.test/" {["Accept" := ["text/html"]]} None)
              "Accept") as (stamped & H1 & H2 & H3).
  - reflexivity.
  - intros k v Hk. apply lookup_singleton_Some in Hk as [<- _].
    vm_compute. discriminate.
  - exists stamped. split; [exact H1|]. split; [|exact H3].
    rewrite H2. reflexivity.
Defined.

(** X11.  On a client whose transport is the header decorator over a
    base that is not itself a decorator, every attempt of [Do] reaches
    the base transport with the value of every default header that no
    other entry of the mapping contradicts. *)
Theorem Do_default_headers_every_attempt
    (network : nat -> Request -> RoundTripResult)
    (range_order : gmap string string -> list (string * string))
    (fuel : nat) (hc : HTTPClient) (req : Request) (res : DoResult)
    (tr : list Event) (base : RoundTripper) (headers : gmap string string)
    (k v : string) :
  Client_Transport (client hc) = headerTransport_ptr base headers ->
  is_headerTransport base = false ->
  range_order headers ≡ₚ map_to_list headers ->
  headers !! k = Some v ->
  (forall k' v', headers !! k' = Some v' ->
     Textproto.CanonicalMIMEHeaderKey k' = Textproto.CanonicalMIMEHeaderKey k ->
     v' = v) ->
  Do network range_order fuel hc req = Some (res, tr) ->
  Forall (fun hw =>
            Header (snd hw) !! Textproto.CanonicalMIMEHeaderKey k = Some [v])
    (sends tr).
Proof.
  intros Hrt Hbase Hperm Hk Hsame HDo. unfold Do in HDo.
  rewrite (Do_from_sends network range_order _ _ _ _ _ _ _ _ HDo).
  apply Forall_forall. intros hw Hin.
  apply list_elem_of_In, in_map_iff in Hin as (t & <- & _).
  cbn [snd]. simpl Nat.iter. rewrite Hrt. simpl wire_request.
  rewrite (wire_request_plain range_order base _ Hbase).
  apply range_Set_lookup; assumption.
Qed.

Lemma Do_default_headers_every_attempt_witness :
  exists res tr,
    Do (status_network [500; 200]) listed_order 9
      (set_Transport (headerTransport_ptr nil_RoundTripper {["X-App" := "myapp"]})
         (sample_client 2))
      (mkRequest "GET" "http://example.test/" {["X-App" := ["other"]]} None)
    = Some (res, tr)
    /\ length (sends tr) = 2%nat
    /\ Forall (fun hw =>
                 Header (snd hw) !! Textproto.CanonicalMIMEHeaderKey "X-App"
                 = Some ["myapp"%string])
         (sends tr).
Proof.
  eexists _, _. split; [vm_compute; reflexivity|]. split; [reflexivity|].
  eapply (Do_default_headers_every_attempt (status_network [500; 200]) listed_order 9
            (set_Transport
               (headerTransport_ptr nil_RoundTripper {["X-App" := "myapp"]})
               (sample_client 2))
            (mkRequest "GET" "http://example.test/" {["X-App" := ["other"]]} None)
            _ _ nil_RoundTripper {["X-App" := "myapp"]} "X-App" "myapp").
  - reflexivity.
  - reflexivity.
  - reflexivity.
  - reflexivity.
  - intros k' v' Hk' _. apply lookup_singleton_Some in Hk' as [_ <-]. reflexivity.
  - vm_compute. reflexivity.
Defined.

(** * Further properties of the options *)

(** What [WithDefaultHeaders] installs. *)
Lemma WithDefaultHeaders_installs (headers : gmap string string)
    (hc : HTTPClient) (heap : TransportHeap) :
  exists base heap',
    WithDefaultHeaders headers hc heap
    = Some (set_Transport (headerTransport_ptr base headers) hc, heap')
    /\ (Client_Transport (client hc) = nil_RoundTripper ->
        base = http_Transport_ptr (Some (alloc heap))
        /\ heap' = <[alloc heap := zero_Transport]> heap)
    /\ (Client_Transport (client hc) <> nil_RoundTripper ->
        base = Client_Transport (client hc) /\ heap' = heap).
Proof.
  unfold WithDefaultHeaders.
  destruct (Client_Transport (client hc)) as [ | p | b hs | id];
    eexists _, _; (split; [reflexivity|]);
    split; intros H; try congruence; split; reflexivity.
Qed.

(** X12.  When [WithDefaultHeaders] is applied twice, the decorator of
    the first application is the inner one and runs last: for a header
    that both mappings name, the request reaches the base transport with
    the value of the first mapping. *)
Theorem WithDefaultHeaders_twice_first_wins
    (range_order : gmap string string -> list (string * string))
    (h1 h2 : gmap string string) (hc hc1 hc2 : HTTPClient)
    (heap heap1 heap2 : TransportHeap) (req : Request) (k v : string) :
  is_headerTransport (Client_Transport (client hc)) = false ->
  WithDefaultHeaders h1 hc heap = Some (hc1, heap1) ->
  WithDefaultHeaders h2 hc1 heap1 = Some (hc2, heap2) ->
  range_order h1 ≡ₚ map_to_list h1 ->
  h1 !! k = Some v ->
  (forall k' v', h1 !! k' = Some v' ->
     Textproto.CanonicalMIMEHeaderKey k' = Textproto.CanonicalMIMEHeaderKey k ->
     v' = v) ->
  Header (wire_request range_order (Client_Transport (client hc2)) req)
    !! Textproto.CanonicalMIMEHeaderKey k = Some [v].
Proof.
  intros Hplain H1 H2 Hperm Hk Hsame.
  destruct (WithDefaultHeaders_installs h1 hc heap) as (b1 & g1 & E1 & Hnil & Hnn).
  rewrite E1 in H1. injection H1 as <- <-.
  destruct (WithDefaultHeaders_installs h2
              (set_Transport (headerTransport_ptr b1 h1) hc) g1)
    as (b2 & g2 & E2 & _ & Hnn2).
  rewrite E2 in H2. injection H2 as <- <-.
  destruct (Hnn2 ltac:(discriminate)) as [-> _].
  assert (Hb1 : is_headerTransport b1 = false).
  { destruct (Client_Transport (client hc)) as [ | p | b hs | id] eqn:Hrt.
    - destruct (Hnil eq_refl) as [-> _]. reflexivity.
    - destruct (Hnn ltac:(discriminate)) as [-> _]. reflexivity.
    - discriminate.
    - destruct (Hnn ltac:(discriminate)) as [-> _]. reflexivity. }
  simpl. rewrite (wire_request_plain range_order b1 _ Hb1).
  apply range_Set_lookup; assumption.
Qed.

Lemma WithDefaultHeaders_twice_first_wins_witness :
  exists hc1 heap1 hc2 heap2,
    WithDefaultHeaders {["X-App" := "first"]} (sample_client 0) ∅ = Some (hc1, heap1)
    /\ WithDefaultHeaders {["X-App" := "second"]} hc1 heap1 = Some (hc2, heap2)
    /\ Header (wire_request listed_order (Client_Transport (client hc2)) sample_request)
         !! Textproto.CanonicalMIMEHeaderKey "X-App" = Some ["first"%string].
Proof.
  eexists _, _, _, _. split; [reflexivity|]. split; [reflexivity|].
  eapply (WithDefaultHeaders_twice_first_wins listed_order {["X-App" := "first"]}
            {["X-App" := "second"]} (sample_client 0) _ _ ∅ _ _ sample_request
            "X-App" "first").
  - reflexivity.
  - reflexivity.
  - reflexivity.
  - reflexivity.
  - reflexivity.
  - intros k' v' Hk' _. apply lookup_singleton_Some in Hk' as [_ <-]. reflexivity.
Defined.

(** X13.  [WithDefaultHeaders] and [WithTLSConfig] do not commute.
    Applied after [WithDefaultHeaders], [WithTLSConfig] replaces the
    decorator by a new transport that holds the TLS configuration only, and
    no default header is set on any request; applied before it, the
    decorator wraps the transport that holds the TLS configuration. *)
Theorem WithTLSConfig_WithDefaultHeaders_order
    (headers : gmap string string) (tlsConfig : option tls_Config)
    (hc : HTTPClient) (heap : TransportHeap) :
  (exists hc1 heap1 hc2 heap2 p,
     WithDefaultHeaders headers hc heap = Some (hc1, heap1)
     /\ WithTLSConfig tlsConfig hc1 heap1 = Some (hc2, heap2)
     /\ Client_Transport (client hc2) = http_Transport_ptr (Some p)
     /\ heap2 !! p = Some (tls_only_Transport tlsConfig)
     /\ forall range_order req,
          wire_request range_order (Client_Transport (client hc2)) req = req)
  /\ (forall hc1 heap1,
        WithTLSConfig tlsConfig hc heap = Some (hc1, heap1) ->
        exists hc2 p t,
          WithDefaultHeaders headers hc1 heap1 = Some (hc2, heap1)
          /\ Client_Transport (client hc2)
             = headerTransport_ptr (http_Transport_ptr (Some p)) headers
          /\ heap1 !! p = Some t
          /\ TLSClientConfig t = tlsConfig).
Proof.
  split.
  - destruct (WithDefaultHeaders_installs headers hc heap) as (b & g & E & _).
    eexists _, _, _, _, _. split; [exact E|].
    split; [reflexivity|]. split; [reflexivity|].
    split; [apply lookup_insert_eq|]. intros range_order req. reflexivity.
  - intros hc1 heap1 HT. unfold WithTLSConfig in HT.
    assert (Hcases : exists p t,
              Client_Transport (client hc1) = http_Transport_ptr (Some p)
              /\ heap1 !! p = Some t /\ TLSClientConfig t = tlsConfig).
    { destruct (Client_Transport (client hc)) as [ | [p|] | b hs | id] eqn:Hrt.
      - injection HT as <- <-. eexists _, _. split; [reflexivity|].
        split; [apply lookup_insert_eq|reflexivity].
      - destruct (heap !! p) as [t|]; [|discriminate].
        injection HT as <- <-. exists p. eexists. split; [exact Hrt|].
        split; [apply lookup_insert_eq|reflexivity].
      - discriminate.
      - injection HT as <- <-. eexists _, _. split; [reflexivity|].
        split; [apply lookup_insert_eq|reflexivity].
      - injection HT as <- <-. eexists _, _. split; [reflexivity|].
        split; [apply lookup_insert_eq|reflexivity]. }
    destruct Hcases as (p & t & Hrt1 & Hp & Ht).
    exists (set_Transport (headerTransport_ptr (http_Transport_ptr (Some p)) headers) hc1),
      p, t.
    split; [|split; [reflexivity|split; assumption]].
    unfold WithDefaultHeaders. rewrite Hrt1. reflexivity.
Qed.

Lemma WithTLSConfig_WithDefaultHeaders_order_witness :
  exists hc1 heap1 hc2 p t,
    WithTLSConfig (Some sample_tls) (sample_client 0) ∅ = Some (hc1, heap1)
    /\ WithDefaultHeaders {["X-App" := "myapp"]} hc1 heap1 = Some (hc2, heap1)
    /\ Client_Transport (client hc2)
       = headerTransport_ptr (http_Transport_ptr (Some p)) {["X-App" := "myapp"]}
    /\ heap1 !! p = Some t
    /\ TLSClientConfig t = Some sample_tls.
Proof.
  eexists _, _. 
  destruct (proj2 (WithTLSConfig_WithDefaultHeaders_order {["X-App" := "myapp"]}
                     (Some sample_tls) (sample_client 0) ∅) _ _ eq_refl)
    as (hc2 & p & t & H1 & H2 & H3 & H4).
  exists hc2, p, t. split; [reflexivity|]. repeat split; assumption.
Defined.

Lemma fold_options_app (first later : list Option)
    (acc : option (HTTPClient * TransportHeap)) :
  fold_left
    (fun acc opt => match acc with Some (hc, h) => opt hc h | None => None end)
    (first ++ later) acc
  = fold_left
      (fun acc opt => match acc with Some (hc, h) => opt hc h | None => None end)
      later
      (fold_left
         (fun acc opt => match acc with Some (hc, h) => opt hc h | None => None end)
         first acc).
Proof. apply fold_left_app. Qed.

Lemma non_retry_option_retry (opt : Option) hc heap hc' heap' :
  non_retry_option opt -> opt hc heap = Some (hc', heap') ->
  retryCount hc' = retryCount hc /\ retryDelay hc' = retryDelay hc.
Proof.
  intros Hopt Happ. destruct Hopt as [b|l|rt|cfg|h|t];
    unfold WithExponentialBackoff, WithLogger, WithTransport, WithTLSConfig,
      WithDefaultHeaders, WithTimeout in Happ.
  - injection Happ as <- _. split; reflexivity.
  - injection Happ as <- _. split; reflexivity.
  - injection Happ as <- _. split; reflexivity.
  - destruct (Client_Transport (client hc)) as [ | [p|] | base hs | id].
    + injection Happ as <- _. split; reflexivity.
    + destruct (heap !! p); [|discriminate]. injection Happ as <- _.
      split; reflexivity.
    + discriminate.
    + injection Happ as <- _. split; reflexivity.
    + injection Happ as <- _. split; reflexivity.
  - destruct (Client_Transport (client hc)); injection Happ as <- _;
      split; reflexivity.
  - injection Happ as <- _. split; reflexivity.
Qed.

Lemma fold_options_retry (options : list Option) :
  Forall non_retry_option options ->
  forall acc hc heap,
    fold_left
      (fun acc opt => match acc with Some (hc, h) => opt hc h | None => None end)
      options acc = Some (hc, heap) ->
    exists hc0 heap0,
      acc = Some (hc0, heap0)
      /\ retryCount hc = retryCount hc0 /\ retryDelay hc = retryDelay hc0.
Proof.
  induction 1 as [|opt options Hopt _ IH]; intros acc hc heap Hfold.
  - simpl in Hfold. subst acc. eauto.
  - simpl in Hfold. apply IH in Hfold as (hc1 & heap1 & Hstep & Hc & Hd).
    destruct acc as [[hc0 heap0]|]; [|discriminate].
    exists hc0, heap0. split; [reflexivity|].
    destruct (non_retry_option_retry opt hc0 heap0 hc1 heap1 Hopt Hstep) as [Hc' Hd'].
    split; congruence.
Qed.

(** X14.  The options apply in order and the last [WithRetry] decides:
    whatever precedes it, and whichever options other than [WithRetry]
    follow it, the client holds its retry count and its delay. *)
Theorem NewHTTPClient_last_WithRetry
    (first later : list Option) (count : Z) (delay : Duration)
    (heap heap' : TransportHeap) (hc : HTTPClient) :
  Forall non_retry_option later ->
  NewHTTPClient (first ++ WithRetry count delay :: later) heap = Some (hc, heap') ->
  retryCount hc = count /\ retryDelay hc = delay.
Proof.
  intros Hlater Hnew. unfold NewHTTPClient in Hnew.
  rewrite fold_options_app in Hnew. simpl fold_left in Hnew.
  apply (fold_options_retry later Hlater) in Hnew as (hc1 & heap1 & Hstep & -> & ->).
  destruct (fold_left _ first _) as [[hc0 heap0]|]; [|discriminate].
  injection Hstep as <- _. split; reflexivity.
Qed.

Lemma NewHTTPClient_last_WithRetry_witness :
  Forall non_retry_option [WithTimeout (5 * Second); WithTLSConfig None]
  /\ exists hc heap',
       NewHTTPClient ([WithRetry 1 Millisecond; WithDefaultHeaders ∅]
                      ++ WithRetry 3 Second
                         :: [WithTimeout (5 * Second); WithTLSConfig None]) ∅
       = Some (hc, heap')
       /\ retryCount hc = 3 /\ retryDelay hc = Second.
Proof.
  split; [repeat constructor|].
  eexists _, _. split; [reflexivity|].
  eapply (NewHTTPClient_last_WithRetry [WithRetry 1 Millisecond; WithDefaultHeaders ∅]
            [WithTimeout (5 * Second); WithTLSConfig None] 3 Second ∅).
  - repeat constructor.
  - reflexivity.
Defined.

(** X15.  Once [WithExponentialBackoff B] has been applied, no later
    option other than another [WithExponentialBackoff] changes the
    back-off function: a [WithRetry] that follows it sets [retryDelay], but
    [Do] keeps using the exponential delays. *)
Theorem NewHTTPClient_backoff_persists
    (first later : list Option) (B : Duration)
    (heap heap' : TransportHeap) (hc : HTTPClient) :
  Forall fixed_delay_option later ->
  NewHTTPClient (first ++ WithExponentialBackoff B :: later) heap = Some (hc, heap') ->
  backoff hc = Some (exponential_backoff B).
Proof.
  intros Hlater Hnew. unfold NewHTTPClient in Hnew.
  rewrite fold_options_app in Hnew. simpl fold_left in Hnew.
  apply (fold_options_backoff later Hlater) in Hnew as (hc1 & heap1 & Hstep & ->).
  destruct (fold_left _ first _) as [[hc0 heap0]|]; [|discriminate].
  injection Hstep as <- _. reflexivity.
Qed.

Lemma NewHTTPClient_backoff_persists_witness :
  Forall fixed_delay_option [WithRetry 3 Second]
  /\ exists hc heap',
       NewHTTPClient ([] ++ WithExponentialBackoff (100 * Millisecond)
                            :: [WithRetry 3 Second]) ∅ = Some (hc, heap')
       /\ retryDelay hc = Second
       /\ backoff hc = Some (exponential_backoff (100 * Millisecond)).
Proof.
  split; [repeat constructor|].
  eexists _, _. split; [reflexivity|]. split; [reflexivity|].
  eapply (NewHTTPClient_backoff_persists [] [WithRetry 3 Second]
            (100 * Millisecond) ∅).
  - repeat constructor.
  - reflexivity.
Defined.

Lemma is_Some_lookup_insert (heap : TransportHeap) (p q : positive)
    (t : http_Transport) :
  is_Some (heap !! q) -> is_Some (<[p := t]> heap !! q).
Proof.
  intros Hq. destruct (decide (p = q)) as [->|Hne].
  - rewrite lookup_insert_eq. eauto.
  - rewrite lookup_insert_ne by exact Hne. exact Hq.
Qed.

(** A safe option applies without panic and keeps the installed
    transport installable and the objects of the initial heap allocated. *)
Lemma safe_option_step (heap0 : TransportHeap) (opt : Option) hc heap :
  safe_option heap0 opt ->
  installable (Client_Transport (client hc)) heap ->
  (forall p, is_Some (heap0 !! p) -> is_Some (heap !! p)) ->
  exists hc' heap',
    opt hc heap = Some (hc', heap')
    /\ installable (Client_Transport (client hc')) heap'
    /\ (forall p, is_Some (heap0 !! p) -> is_Some (heap' !! p)).
Proof.
  intros Hopt Hinst Hmono.
  destruct Hopt as [count delay|b|l|rt Hrt|cfg|h|t].
  - eexists _, _. split; [reflexivity|]. split; assumption.
  - eexists _, _. split; [reflexivity|]. split; assumption.
  - eexists _, _. split; [reflexivity|]. split; assumption.
  - eexists _, _. split; [reflexivity|]. split; [|assumption].
    simpl. destruct rt as [ | [p|] | base hs | id]; simpl in *;
      [exact I|apply Hmono; exact Hrt|contradiction|exact I|exact I].
  - unfold WithTLSConfig.
    destruct (Client_Transport (client hc)) as [ | [p|] | base hs | id] eqn:Hct;
      simpl in Hinst.
    + eexists _, _. split; [reflexivity|]. split.
      * simpl. rewrite lookup_insert_eq. eauto.
      * intros q Hq. apply is_Some_lookup_insert, Hmono, Hq.
    + destruct Hinst as [t Ht]. rewrite Ht.
      eexists _, _. split; [reflexivity|]. split.
      * rewrite Hct. simpl. rewrite lookup_insert_eq. eauto.
      * intros q Hq. apply is_Some_lookup_insert, Hmono, Hq.
    + contradiction.
    + eexists _, _. split; [reflexivity|]. split.
      * simpl. rewrite lookup_insert_eq. eauto.
      * intros q Hq. apply is_Some_lookup_insert, Hmono, Hq.
    + eexists _, _. split; [reflexivity|]. split.
      * simpl. rewrite lookup_insert_eq. eauto.
      * intros q Hq. apply is_Some_lookup_insert, Hmono, Hq.
  - unfold WithDefaultHeaders.
    destruct (Client_Transport (client hc)) as [ | p | base hs | id];
      eexists _, _; (split; [reflexivity|]); (split; [exact I|]);
      try assumption.
    intros q Hq. apply is_Some_lookup_insert, Hmono, Hq.
  - eexists _, _. split; [reflexivity|]. split; assumption.
Qed.

(** X16.  Construction does not panic when every transport handed to
    [WithTransport] is installable (anything but a nil [*http.Transport]):
    [NewHTTPClient] then returns a client, whatever the options and their
    order. *)
Theorem NewHTTPClient_does_not_panic
    (options : list Option) (heap : TransportHeap) :
  Forall (safe_option heap) options ->
  exists hc heap', NewHTTPClient options heap = Some (hc, heap').
Proof.
  intros Hopts. unfold NewHTTPClient.
  assert (Hgen : forall hc0 heap0,
            installable (Client_Transport (client hc0)) heap0 ->
            (forall p, is_Some (heap !! p) -> is_Some (heap0 !! p)) ->
            exists hc heap',
              fold_left
                (fun acc opt =>
                   match acc with Some (hc, h) => opt hc h | None => None end)
                options (Some (hc0, heap0)) = Some (hc, heap')).
  { induction Hopts as [|opt options Hopt _ IH]; intros hc0 heap0 Hinst Hmono.
    - simpl. eauto.
    - simpl.
      destruct (safe_option_step heap opt hc0 heap0 Hopt Hinst Hmono)
        as (hc1 & heap1 & -> & Hinst1 & Hmono1).
      apply IH; assumption. }
  apply Hgen; [exact I|auto].
Qed.

Lemma NewHTTPClient_does_not_panic_witness :
  Forall (safe_option {[1%positive := sample_transport]})
    [WithTransport (http_Transport_ptr (Some 1%positive));
     WithDefaultHeaders {["X-App" := "myapp"]};
     WithTLSConfig (Some sample_tls);
     WithTLSConfig None]
  /\ exists hc heap',
       NewHTTPClient
         [WithTransport (http_Transport_ptr (Some 1%positive));
          WithDefaultHeaders {["X-App" := "myapp"]};
          WithTLSConfig (Some sample_tls);
          WithTLSConfig None]
         {[1%positive := sample_transport]} = Some (hc, heap').
Proof.
  assert (H : Forall (safe_option {[1%positive := sample_transport]})
                [WithTransport (http_Transport_ptr (Some 1%positive));
                 WithDefaultHeaders {["X-App" := "myapp"]};
                 WithTLSConfig (Some sample_tls);
                 WithTLSConfig None]).
  { repeat constructor. simpl. rewrite lookup_singleton_eq. eauto. }
  split; [exact H|].
  apply (NewHTTPClient_does_not_panic _ _ H).
Defined.

(** A panic does occur otherwise: [WithTLSConfig] after a nil
    [*http.Transport]. *)
Example NewHTTPClient_panics_on_nil_Transport :
  NewHTTPClient [WithTransport (http_Transport_ptr None); WithTLSConfig None] ∅ = None.
Proof. reflexivity. Qed.

(** * [PostJSON] without a caller's map *)



(** * The back-off closure below its first index *)

(** [math.Pow(2, float64(n))] for a negative exponent in the normal
    range: the float [2^n]. *)
Lemma Pow2_of_int_negative (n : Z) :
  -1022 <= n < 0 ->
  Float64.Pow2 (Float64.of_int n) = S754_finite false 4503599627370496 (n - 52).
Proof.
  intros Hn.
  assert (Ht : Float64.trunc (Float64.of_int n) = Some n).
  { apply Float64Facts.trunc_of_int.
    assert (1022 < 2 ^ 53) by (vm_compute; reflexivity). lia. }
  assert (HP : Float64.Pow2 (Float64.of_int n)
               = SFldexp Float64.prec Float64.emax
                   (SFone Float64.prec Float64.emax) n).
  { unfold Float64.Pow2. rewrite Ht.
    destruct (Float64.of_int n) as [ | [|] | |]; try reflexivity; discriminate. }
  rewrite HP.
  change (SFone Float64.prec Float64.emax)
    with (S754_finite false 4503599627370496 (-52)).
  unfold SFldexp, binary_round.
  change (digits2_pos 4503599627370496) with 53%positive.
  assert (Hf : fexp Float64.prec Float64.emax (53 + (-52 + n)) = -52 + n).
  { unfold fexp, emin, Float64.prec, Float64.emax. lia. }
  rewrite Hf. unfold shl_align. rewrite Z.sub_diag.
  pose proof (Float64Facts.binary_round_aux_exact false 4503599627370496 0 (-52 + n))
    as Hx.
  change (Float64.dbl 0 4503599627370496) with 4503599627370496%positive in Hx.
  simpl Z.of_nat in Hx. rewrite Z.add_0_r in Hx.
  rewrite Hx by (try reflexivity; lia). f_equal. lia.
Qed.

(** Truncation of a float whose value is [a / 2^d]. *)
Lemma trunc_finite_quotient (s : bool) (q : positive) (e a d : Z) :
  0 <= a -> 0 < d -> -1074 <= e ->
  Zpos q * 2 ^ (e + d + 1074) = a * 2 ^ 1074 ->
  Float64.trunc (S754_finite s q e) = Some (if s then - (a / 2 ^ d) else a / 2 ^ d).
Proof.
  intros Ha Hd He Hv. unfold Float64.trunc. f_equal.
  assert (Hval : match e with
                 | 0 => Zpos q
                 | Zpos p => Zpos q * 2 ^ Zpos p
                 | Zneg p => Zpos q / 2 ^ Zpos p
                 end = a / 2 ^ d).
  { assert (Hpd : 0 < 2 ^ d) by (apply Z.pow_pos_nonneg; lia).
    assert (Hp1074 : 0 < 2 ^ 1074) by (apply Z.pow_pos_nonneg; lia).
    destruct e as [|p|p].
    - (* q * 2^d = a *)
      replace (0 + d + 1074) with (d + 1074) in Hv by lia.
      rewrite Z.pow_add_r, Z.mul_assoc in Hv by lia.
      apply Z.mul_cancel_r in Hv; [|lia].
      rewrite <- Hv. symmetry. apply Z.div_mul. lia.
    - (* q * 2^p * 2^d = a *)
      replace (Zpos p + d + 1074) with (Zpos p + (d + 1074)) in Hv by lia.
      rewrite (Z.pow_add_r 2 (Zpos p)), (Z.pow_add_r 2 d), !Z.mul_assoc in Hv by lia.
      apply Z.mul_cancel_r in Hv; [|lia].
      rewrite <- Hv. symmetry. apply Z.div_mul. lia.
    - (* q * 2^d = a * 2^p *)
      assert (Hpp : 0 < 2 ^ Zpos p) by (apply Z.pow_pos_nonneg; lia).
      assert (Hq : Zpos q * 2 ^ d = a * 2 ^ Zpos p).
      { assert (H1 : 2 ^ 1074 = 2 ^ (Zneg p + 1074) * 2 ^ Zpos p).
        { rewrite <- Z.pow_add_r by lia. f_equal. lia. }
        assert (H2 : 2 ^ (Zneg p + d + 1074) = 2 ^ (Zneg p + 1074) * 2 ^ d).
        { rewrite <- Z.pow_add_r by lia. f_equal. lia. }
        rewrite H2 in Hv. rewrite H1 in Hv.
        assert (Hp0 : 0 < 2 ^ (Zneg p + 1074)) by (apply Z.pow_pos_nonneg; lia).
        nia. }
      (* both quotients equal (q * 2^d) / (2^p * 2^d) *)
      rewrite <- (Z.div_mul_cancel_r (Zpos q) (2 ^ Zpos p) (2 ^ d)) by lia.
      rewrite Hq.
      rewrite (Z.mul_comm (2 ^ Zpos p) (2 ^ d)).
      rewrite Z.div_mul_cancel_r by lia. reflexivity. }
  rewrite Hval. reflexivity.
Qed.

(** X18.  For an attempt index [i <= 0] (down to -1021) and a base delay
    of magnitude at most 2^53 nanoseconds, the function installed by
    [WithExponentialBackoff B] returns [B / 2^(1-i)] rounded towards
    zero: half the base delay at index 0. *)
Theorem exponential_backoff_below_first (B : Duration) (i : Z) :
  Z.abs B <= 2 ^ 53 -> -1021 <= i <= 0 ->
  exponential_backoff B i = Z.quot B (2 ^ (1 - i)).
Proof.
  intros HB Hi. unfold exponential_backoff.
  rewrite wrap_int_id by (unfold GoInt.min_int, GoInt.max_int; lia).
  rewrite Pow2_of_int_negative by lia.
  assert (Hpd : 0 < 2 ^ (1 - i)) by (apply Z.pow_pos_nonneg; lia).
  destruct (Z.eq_dec B 0) as [->|HB0].
  { rewrite Z.quot_0_l by lia. reflexivity. }
  destruct (Float64Facts.of_int_repr B HB0 HB) as (q & e & -> & Hd & He & Hv).
  rewrite Float64Facts.mul_pow2 by lia.
  unfold Float64.to_int.
  rewrite (trunc_finite_quotient _ q (e + (i - 1)) (Z.abs B) (1 - i)); try lia.
  - assert (Hq : 0 <= Z.abs B / 2 ^ (1 - i) <= Z.abs B).
    { split; [apply Z.div_pos; lia|].
      apply Z.div_le_upper_bound; [lia|]. nia. }
    assert (Hr : GoInt.in_range
                   (if B <? 0 then - (Z.abs B / 2 ^ (1 - i))
                    else Z.abs B / 2 ^ (1 - i)) = true).
    { unfold GoInt.in_range, GoInt.min_int, GoInt.max_int.
      assert (2 ^ 53 < 2 ^ 63) by (vm_compute; reflexivity).
      apply andb_true_intro; split; apply Z.leb_le; destruct (B <? 0); lia. }
    rewrite Hr.
    destruct (Z.ltb_spec B 0) as [Hneg|Hpos].
    + rewrite (Z.abs_neq B) by lia.
      rewrite <- (Z.opp_involutive B) at 2.
      rewrite Z.quot_opp_l by lia. rewrite Z.quot_div_nonneg by lia. reflexivity.
    + rewrite (Z.abs_eq B) by lia. rewrite Z.quot_div_nonneg by lia. reflexivity.
  - replace (e + (i - 1) + (1 - i) + 1074) with ((e + 52) + 1022) by lia.
    rewrite Z.pow_add_r, Z.mul_assoc, Hv by lia.
    rewrite <- Z.mul_assoc, <- Z.pow_add_r by lia. reflexivity.
Qed.

Lemma exponential_backoff_below_first_witness :
  Z.abs 101 <= 2 ^ 53 /\ -1021 <= 0 <= 0
  /\ exponential_backoff 101 0 = Z.quot 101 (2 ^ (1 - 0)).
Proof.
  split; [vm_compute; discriminate|]. split; [lia|].
  apply (exponential_backoff_below_first 101 0); [vm_compute; discriminate|lia].
Defined.

(** * Witnesses for properties stated earlier, and the headers of a helper *)

Lemma PostJSON_request_content_type_witness :
  listed_order (<["Content-Type" := "application/json"]> {["Accept" := "text/html"]})
    ≡ₚ map_to_list (<["Content-Type" := "application/json"]>
                      ({["Accept" := "text/html"]} : gmap string string))
  /\ any_url "http://example.test/" = true
  /\ sample_Marshal sample_true = inl "true"%string
  /\ ({[1%positive := {["Accept" := "text/html"]}]} : MapHeap) !! 1%positive
     = Some {["Accept" := "text/html"]}
  /\ exists req,
       fst (PostJSON (status_network []) listed_order any_url SampleValue
              sample_Marshal 3 (sample_client 0) "http://example.test/" sample_true
              (Some 1%positive) {[1%positive := {["Accept" := "text/html"]}]})
       = Do (status_network []) listed_order 3 (sample_client 0) req
       /\ Header req !! "Content-Type"%string = Some ["application/json"%string].
Proof.
  split; [reflexivity|]. split; [reflexivity|]. split; [reflexivity|].
  split; [reflexivity|].
  apply (PostJSON_request_content_type (status_network []) listed_order any_url
           SampleValue sample_Marshal 3 (sample_client 0) "http://example.test/"
           sample_true 1%positive {[1%positive := {["Accept" := "text/html"]}]}
           {["Accept" := "text/html"]} "true"%string).
  - reflexivity.
  - reflexivity.
  - reflexivity.
  - reflexivity.
  - intros k w Hk Hc. apply lookup_singleton_Some in Hk as [<- _].
    vm_compute in Hc. discriminate Hc.
Defined.

Lemma PostJSON_unserializable_witness :
  sample_Marshal sample_channel
  = inr (external_error "json: unsupported type: chan int")
  /\ PostJSON (status_network []) listed_order any_url SampleValue sample_Marshal
       3 (sample_client 2) "http://example.test/" sample_channel (Some 1%positive)
       lowercase_maps
     = (Some ((None, Some (external_error "json: unsupported type: chan int")), []),
        lowercase_maps).
Proof.
  split; [reflexivity|].
  apply (PostJSON_unserializable (status_network []) listed_order any_url
           SampleValue sample_Marshal 3 (sample_client 2) "http://example.test/"
           sample_channel 1%positive lowercase_maps
           (external_error "json: unsupported type: chan int")).
  reflexivity.
Defined.

Lemma Do_fixed_delay_options_sleep_zero_witness :
  Forall fixed_delay_option [WithRetry 3 Second; WithTimeout (5 * Second)]
  /\ exists hc heap' res tr,
       NewHTTPClient [WithRetry 3 Second; WithTimeout (5 * Second)] ∅
       = Some (hc, heap')
       /\ retryDelay hc = Second
       /\ Do (status_network [500; 500; 200]) listed_order 9 hc sample_request
          = Some (res, tr)
       /\ length (delays tr) = 2%nat
       /\ Forall (fun d => d = 0) (delays tr).
Proof.
  split; [repeat constructor|].
  eexists _, _, _, _. split; [reflexivity|]. split; [reflexivity|].
  split; [vm_compute; reflexivity|]. split; [reflexivity|].
  eapply (Do_fixed_delay_options_sleep_zero (status_network [500; 500; 200])
            listed_order [WithRetry 3 Second; WithTimeout (5 * Second)] ∅ _ _ 9
            sample_request).
  - repeat constructor.
  - reflexivity.
  - vm_compute. reflexivity.
Defined.

Lemma range_Set_carries_exactly
    (range_order : gmap string string -> list (string * string))
    (headers : gmap string string) (method url : string) (body : option bytes) :
  range_order headers ≡ₚ map_to_list headers ->
  carries_exactly headers
    (range_Set range_order headers (mkRequest method url ∅ body)).
Proof.
  intros Hperm. split.
  - intros k v Hk Hsame. apply range_Set_lookup; assumption.
  - intros c Hno. unfold range_Set. rewrite set_headers_frame.
    + apply lookup_empty.
    + intros k v Hin. apply (Hno k v).
      rewrite Hperm in Hin. apply elem_of_map_to_list in Hin. exact Hin.
Qed.

(** X22.  When the target is accepted, each of [Get], [Post], [Put] and
    [Delete] passes to [Do] a request that carries the caller's headers
    and no other header: an entry that no other entry contradicts is
    stored under its canonical name, and every other name is absent. *)
Theorem verb_helpers_set_caller_headers
    (network : nat -> Request -> RoundTripResult)
    (range_order : gmap string string -> list (string * string))
    (url_ok : string -> bool)
    (fuel : nat) (hc : HTTPClient) (url : string) (body : option bytes)
    (headers : gmap string string) :
  range_order headers ≡ₚ map_to_list headers ->
  url_ok url = true ->
  (exists req,
     Get network range_order url_ok fuel hc url headers
     = Do network range_order fuel hc req /\ carries_exactly headers req)
  /\ (exists req,
        Post network range_order url_ok fuel hc url body headers
        = Do network range_order fuel hc req /\ carries_exactly headers req)
  /\ (exists req,
        Put network range_order url_ok fuel hc url body headers
        = Do network range_order fuel hc req /\ carries_exactly headers req)
  /\ (exists req,
        Delete network range_order url_ok fuel hc url headers
        = Do network range_order fuel hc req /\ carries_exactly headers req).
Proof.
  intros Hperm Hurl.
  unfold Get, Post, Put, Delete, http_NewRequest. rewrite Hurl.
  repeat split; eexists; (split; [reflexivity|]);
    apply range_Set_carries_exactly; exact Hperm.
Qed.

Lemma verb_helpers_set_caller_headers_witness :
  listed_order {["authorization" := "Bearer token"]}
    ≡ₚ map_to_list ({["authorization" := "Bearer token"]} : gmap string string)
  /\ any_url "http://example.test/" = true
  /\ exists req,
       Get (status_network []) listed_order any_url 3 (sample_client 0)
         "http://example.test/" {["authorization" := "Bearer token"]}
       = Do (status_network []) listed_order 3 (sample_client 0) req
       /\ carries_exactly {["authorization" := "Bearer token"]} req.
Proof.
  split; [reflexivity|]. split; [reflexivity|].
  apply (proj1 (verb_helpers_set_caller_headers (status_network []) listed_order
           any_url 3 (sample_client 0) "http://example.test/" None
           {["authorization" := "Bearer token"]}
           ltac:(reflexivity) ltac:(reflexivity))).
Defined.
